(** * elbow.builders: partitioned Parquet build orchestration

    A shallow embedding of [src/elbow/builders.py]: the orchestrator
    [build_parquet] and the partition worker [_build_parquet_worker],
    together with the library calls they make (pathlib, shutil,
    str.format, strftime) and the collaborators they import from the rest
    of the package. *)

From Stdlib Require Import ZArith Lia Bool Ascii String.
From stdpp Require Import base option list strings pretty gmap fin_maps sorting.

Local Open Scope Z_scope.

(** ** Python formatting: [str.format] with [04d] and [strftime] *)

Module PyFormat.

(** [str.zfill] on a string of digits: pad with zeros on the left. *)
Definition zfill (width : nat) (s : string) : string :=
  String.string_of_list_ascii
    (replicate (width - String.length s)%nat "0"%char) +:+ s.

(** [format(n, "0{width}d")]: decimal digits, zero padding placed after
    the sign, never truncating. *)
Definition format_0d (width : nat) (n : Z) : string :=
  if n <? 0 then "-" +:+ zfill (width - 1) (pretty (- n))
  else zfill width (pretty n).

Definition format_04d : Z -> string := format_0d 4.

(** The fields of a [datetime] that [strftime("%Y%m%d%H%M%S")] reads. *)
Record datetime := Datetime {
  year : Z; month : Z; day : Z; hour : Z; minute : Z; second : Z
}.

(** The ranges [datetime] guarantees for its fields. *)
Definition datetime_valid (t : datetime) : Prop :=
  1 <= year t <= 9999 /\ 1 <= month t <= 12 /\ 1 <= day t <= 31 /\
  0 <= hour t <= 23 /\ 0 <= minute t <= 59 /\ 0 <= second t <= 59.

(** [start.strftime("%Y%m%d%H%M%S")]. *)
Definition strftime_YmdHMS (t : datetime) : string :=
  format_0d 4 (year t) +:+ format_0d 2 (month t) +:+ format_0d 2 (day t)
  +:+ format_0d 2 (hour t) +:+ format_0d 2 (minute t)
  +:+ format_0d 2 (second t).

(** A decimal digit character. *)
Definition is_digit (c : ascii) : bool :=
  let n := Ascii.nat_of_ascii c in (48 <=? n)%nat && (n <=? 57)%nat.

Definition all_digits (s : string) : bool :=
  forallb is_digit (String.list_ascii_of_string s).

(** Reading a string of digits back as a number. *)
Definition digit_value (c : ascii) : Z :=
  Z.of_nat (Ascii.nat_of_ascii c) - 48.

Definition parse_digits (s : string) : Z :=
  fold_left (fun acc c => 10 * acc + digit_value c)
            (String.list_ascii_of_string s) 0.

(** The property of a fixed-width field: exactly [width] digits that read
    back as [n]. *)
Definition fixed_width (width : nat) (n : Z) (s : string) : bool :=
  (String.length s =? width)%nat && all_digits s && (parse_digits s =? n).

(** Reading on from a number already read. *)
Definition parse_from (acc : Z) (s : string) : Z :=
  fold_left (fun acc c => 10 * acc + digit_value c)
            (String.list_ascii_of_string s) acc.

(** A rendering of [n] for a field of [width] digits: decimal digits that
    read back as [n], padded to the width and never cut. *)
Definition zero_padded (width : nat) (n : Z) (s : string) : Prop :=
  all_digits s = true /\ parse_digits s = n
  /\ (width <= String.length s)%nat
  /\ (n < 10 ^ Z.of_nat width -> String.length s = width).

(** A run of zeros. *)
Definition zeros (k : nat) : string :=
  String.string_of_list_ascii (replicate k "0"%char).

End PyFormat.

Import PyFormat.

(** ** Paths, the file system and the observable trace *)

(** A [pathlib.Path] as its sequence of parts. *)
Definition path := list string.

(** [p / name] *)
Definition joinpath (p : path) (name : string) : path := p ++ [name].

(** [p.parent] *)
Definition parent (p : path) : path := removelast p.

(** An input identifier: one item of the source. *)
Definition ident := string.

(** What the caller passes as [source]: a glob pattern or an iterable. *)
Inductive source_arg :=
| Pattern (pattern : string)
| Paths (paths : list ident).

(** The exceptions the build can raise, by raising site. *)
Inductive exn :=
| InvalidWorkers (workers : Z)
| InvalidWorkerId (worker_id workers : Z)
| OverwriteWithWorkerId
| OutputExists (output : path)
| PartitionExists (partition : path)
| MkdirFileExists (p : path)
| NotADirectory (p : path)
| NoSuchFile (p : path)
| MaxFailuresExceeded (failed : Z).

Inductive exn_class :=
  ValueError | FileExistsError | NotADirectoryError | FileNotFoundError | RuntimeError.

Definition class_of (e : exn) : exn_class :=
  match e with
  | InvalidWorkers _ | InvalidWorkerId _ _ | OverwriteWithWorkerId => ValueError
  | OutputExists _ | PartitionExists _ | MkdirFileExists _ => FileExistsError
  | NotADirectory _ => NotADirectoryError
  | NoSuchFile _ => FileNotFoundError
  | MaxFailuresExceeded _ => RuntimeError
  end.

(** The calls of the build that leave a mark outside the process. *)
Inductive event :=
| Rmtree (output : path)
| WorkerStart (worker_id workers : Z)
| IndexLoad (output : path)
| Mkdir (p : path)
| AtomicOpen (final tmp : path)
| Publish (final : path)
| Discard (final tmp : path)
| Warning (worker_id : Z) (e : exn).

(** [RunCounts]: what one worker's run returns. *)
Record RunCounts := Counts { total : Z; succeeded : Z; failed : Z }.

Section Builders.

(** The records the extractor produces are opaque to the build. *)
Context {record : Type}.

(** A Parquet file: the row groups flushed so far, and whether the
    footer has been written. *)
Record file := File_ { rows : list record; footer : bool }.

Inductive node :=
| Dir
| File (f : file).

Record state := State { files : gmap path node; trace : list event }.

(** *** A state and exception monad *)

Inductive outcome (A : Type) :=
| Return (a : A)
| Raise (e : exn).
Global Arguments Return {A} a.
Global Arguments Raise {A} e.

Definition M (A : Type) : Type := state -> outcome A * state.

Definition ret {A} (a : A) : M A := fun s => (Return a, s).
Definition raise {A} (e : exn) : M A := fun s => (Raise e, s).
Definition bind {A B} (m : M A) (k : A -> M B) : M B := fun s =>
  match m s with
  | (Return a, s') => k a s'
  | (Raise e, s') => (Raise e, s')
  end.
(** [try: m except Exception as e: ...] turned into a value. *)
Definition catch {A} (m : M A) : M (outcome A) := fun s =>
  let '(o, s') := m s in (Return o, s').

Definition emit (ev : event) : M unit := fun s =>
  (Return tt, State (files s) (trace s ++ [ev])).
Definition get_files : M (gmap path node) := fun s => (Return (files s), s).
Definition put_files (fs : gmap path node) : M unit := fun s =>
  (Return tt, State fs (trace s)).

Notation "x <~ m ;; k" := (bind m (fun x => k))
  (at level 100, m at next level, right associativity).
Notation "m ;;; k" := (bind m (fun _ => k))
  (at level 100, right associativity).

(** *** pathlib and shutil *)

(** [Path(p).exists()] *)
Definition path_exists (p : path) : M bool := fun s =>
  (Return (match files s !! p with Some _ => true | None => false end), s).

(** [shutil.rmtree(p)]: removes the directory and everything below it;
    refuses a regular file. *)
Definition rmtree (p : path) : M unit := fun s =>
  match files s !! p with
  | Some Dir =>
      (Return tt,
       State (filter (fun kv => ~ p `prefix_of` kv.1) (files s))
             (trace s ++ [Rmtree p]))
  | Some (File _) => (Raise (NotADirectory p), s)
  | None => (Raise (NoSuchFile p), s)
  end.

(** One level of [mkdir(exist_ok=True)]; [last] tells the requested
    directory from its ancestors. *)
Definition mkdir1 (p : path) (last : bool) (fs : gmap path node)
  : outcome (gmap path node) :=
  match fs !! p with
  | Some Dir => Return fs
  | Some (File _) => Raise (if last then MkdirFileExists p else NotADirectory p)
  | None => Return (<[p := Dir]> fs)
  end.

Fixpoint mkdirs (pre rest : path) (fs : gmap path node)
  : outcome (gmap path node) :=
  match rest with
  | [] => mkdir1 pre true fs
  | c :: rest' =>
      match mkdir1 pre false fs with
      | Return fs' => mkdirs (pre ++ [c]) rest' fs'
      | Raise e => Raise e
      end
  end.

(** [p.mkdir(parents=True, exist_ok=True)] *)
Definition mkdir_parents (p : path) : M unit := fun s =>
  match mkdirs [] p (files s) with
  | Return fs' => (Return tt, State fs' (trace s ++ [Mkdir p]))
  | Raise e => (Raise e, s)
  end.

(** *** The collaborators imported by builders.py *)

(** The environment of a run: what the build reads from outside its own
    code. *)
Record Env := {
  (** the input tree: glob expansion and modification times *)
  iglob : string -> list ident;
  mtime : ident -> Z;
  (** the extractor: the records of an input, or a failure *)
  extract : ident -> option (list record);
  (** the clock as read by each worker when it starts *)
  now : Z -> datetime;
  (** the host's processors *)
  cpus : positive;
  (** the deterministic hash of an identifier used by the partitioner *)
  hash : ident -> Z;
  (** how [FileModifiedIndex.from_parquet] reads a dataset directory; its
      construction is outside the orchestration layer *)
  from_parquet : gmap path node -> path -> gmap ident Z;
  (** the temporary location [atomicopen] stages a file under *)
  mktemp : path -> path;
  (** the flush threshold of the buffered writer, in records *)
  buffer_size : nat;
  (** the order in which the pool's executions run and complete *)
  schedule : list Z -> list Z
}.

Variable E : Env.

(** Modelled from the spec: [elbow.utils.cpu_count] is not in the source
    tree; the host's available parallelism, a positive integer. *)
Definition cpu_count : Z := Z.pos (cpus E).

(** Modelled from the spec: [elbow.filters.hash_partitioner] is not in the
    source tree; the predicate keeps the identifiers whose hash, modulo
    [workers], equals [worker_id]. *)
Definition hash_partitioner (worker_id workers : Z) (p : ident) : bool :=
  hash E p `mod` workers =? worker_id.

(** Modelled from the spec: [elbow.filters.FileModifiedIndex] is not in
    the source tree; called on an identifier, the index keeps it when it
    is new or when its current modification time is newer than the
    recorded one. *)
Definition FileModifiedIndex_call (index : gmap ident Z) (p : ident) : bool :=
  match index !! p with
  | None => true
  | Some recorded => recorded <? mtime E p
  end.

Definition FileModifiedIndex_from_parquet (output : path) : M (gmap ident Z) :=
  fs <~ get_files ;;
  emit (IndexLoad output) ;;;
  ret (from_parquet E fs output).

(** Modelled from the spec: [elbow.utils.atomicopen] is not in the source
    tree; writes go to a temporary location, which is renamed to the final
    path on clean completion and removed on an exception. *)
Definition atomicopen {A} (final : path) (body : path -> M A) : M A := fun s =>
  let tmp := mktemp E final in
  let s1 := State (<[tmp := File (File_ [] false)]> (files s))
                  (trace s ++ [AtomicOpen final tmp]) in
  match body tmp s1 with
  | (Return a, s2) =>
      (Return a,
       match files s2 !! tmp with
       | Some n => State (<[final := n]> (delete tmp (files s2)))
                         (trace s2 ++ [Publish final])
       | None => s2
       end)
  | (Raise e, s2) =>
      (Raise e, State (delete tmp (files s2)) (trace s2 ++ [Discard final tmp]))
  end.

(** Modelled from the spec: [elbow.sinks.BufferedParquetWriter] is not in
    the source tree; an append-style writer over an open handle whose
    close flushes the buffered records and writes the footer. *)
Record writer := Writer { where_ : path; buffer : list record }.

Definition file_at (fs : gmap path node) (p : path) : file :=
  match fs !! p with
  | Some (File f) => f
  | _ => File_ [] false
  end.

Definition writer_flush (w : writer) : M writer :=
  match buffer w with
  | [] => ret w
  | _ =>
      fs <~ get_files ;;
      let f := file_at fs (where_ w) in
      put_files (<[where_ w := File (File_ (rows f ++ buffer w) (footer f))]> fs) ;;;
      ret (Writer (where_ w) [])
  end.

Definition writer_write (w : writer) (records : list record) : M writer :=
  let w' := Writer (where_ w) (buffer w ++ records) in
  if (buffer_size E <=? length (buffer w'))%nat then writer_flush w' else ret w'.

Definition writer_close (w : writer) : M unit :=
  w' <~ writer_flush w ;;
  fs <~ get_files ;;
  let f := file_at fs (where_ w') in
  put_files (<[where_ w' := File (File_ (rows f) true)]> fs).

(** [with BufferedParquetWriter(where=f) as writer: body]. When the body
    raises, the handle is about to be discarded by [atomicopen]. *)
Definition BufferedParquetWriter {A} (f : path) (body : writer -> M (A * writer))
  : M A :=
  r <~ body (Writer f []) ;;
  writer_close r.2 ;;;
  ret r.1.

(** Modelled from the spec: [elbow.pipeline.Pipeline] is not in the source
    tree; for each input the extractor is called, a success is handed to the
    sink, a failure is counted, and the run aborts once the failures exceed
    [max_failures] (never, when it is [None]). *)
Definition budget_exceeded (max_failures : option Z) (nfailed : Z) : bool :=
  match max_failures with
  | None => false
  | Some n => n <? nfailed
  end.

Fixpoint Pipeline_loop (max_failures : option Z) (source : list ident)
    (counts : RunCounts) (w : writer) : M (RunCounts * writer) :=
  match source with
  | [] => ret (counts, w)
  | p :: rest =>
      match extract E p with
      | Some records =>
          w' <~ writer_write w records ;;
          Pipeline_loop max_failures rest
            (Counts (total counts + 1) (succeeded counts + 1) (failed counts)) w'
      | None =>
          let counts' :=
            Counts (total counts + 1) (succeeded counts) (failed counts + 1) in
          if budget_exceeded max_failures (failed counts')
          then raise (MaxFailuresExceeded (failed counts'))
          else Pipeline_loop max_failures rest counts' w
      end
  end.

Definition Pipeline_run (source : list ident) (w : writer)
    (max_failures : option Z) : M (RunCounts * writer) :=
  Pipeline_loop max_failures source (Counts 0 0 0) w.

(** *** builders.py *)

(** [if isinstance(source, str): source = iglob(source, recursive=True)] *)
Definition resolve_source (source : source_arg) : list ident :=
  match source with
  | Pattern pattern => iglob E pattern
  | Paths paths => paths
  end.

(** Lines 153-157 of the worker. *)
Definition incremental_filter (incremental : bool) (output : path)
    (source : list ident) : M (list ident) :=
  output_exists <~ path_exists output ;;
  if incremental && output_exists then
    file_mod_index <~ FileModifiedIndex_from_parquet output ;;
    ret (List.filter (FileModifiedIndex_call file_mod_index) source)
  else ret source.

(** Lines 161-163 of the worker. *)
Definition partition_filter (worker_id workers : Z) (source : list ident)
  : list ident :=
  if 1 <? workers
  then List.filter (hash_partitioner worker_id workers) source
  else source.

(** Lines 166-167: the name of the partition file. *)
Definition partition_name (start : datetime) (worker_id workers : Z) : string :=
  "part-" +:+ strftime_YmdHMS start +:+ "-" +:+ format_04d worker_id
  +:+ "-of-" +:+ format_04d workers +:+ ".parquet".

Definition partition_path (output : path) (start : datetime)
    (worker_id workers : Z) : path :=
  joinpath output (partition_name start worker_id workers).

(** Lines 150-163: the slice of the source this worker owns. *)
Definition filtered_source (worker_id : Z) (source : source_arg)
    (output : path) (incremental : bool) (workers : Z) : M (list ident) :=
  let source := resolve_source source in
  source <~ incremental_filter incremental output source ;;
  ret (partition_filter worker_id workers source).

(** Lines 172-179: the write of the partition. *)
Definition write_partition (output : path) (source : list ident)
    (max_failures : option Z) : M RunCounts :=
  atomicopen output (fun f =>
    BufferedParquetWriter f (fun writer =>
      Pipeline_run source writer max_failures)).

Definition _build_parquet_worker (worker_id : Z) (source : source_arg)
    (output : path) (incremental : bool) (workers : Z)
    (max_failures : option Z) : M RunCounts :=
  emit (WorkerStart worker_id workers) ;;;
  let start := now E worker_id in
  source <~ filtered_source worker_id source output incremental workers ;;
  let output := partition_path output start worker_id workers in
  partition_exists <~ path_exists output ;;
  if partition_exists then raise (PartitionExists output)
  else
    mkdir_parents (parent output) ;;;
    write_partition output source max_failures.

(** Lines 84-89: the number of workers. *)
Definition resolve_workers (workers : option Z) : M Z :=
  match workers with
  | None => ret 1
  | Some w =>
      if w =? -1 then ret cpu_count
      else if w <=? 0 then raise (InvalidWorkers w)
      else ret w
  end.

(** Lines 91-97: the checks on [worker_id]. *)
Definition check_worker_id (worker_id : option Z) (workers : Z)
    (overwrite : bool) : M unit :=
  match worker_id with
  | Some wid =>
      if negb ((0 <=? wid) && (wid <? workers))
      then raise (InvalidWorkerId wid workers)
      else if overwrite then raise OverwriteWithWorkerId
      else ret tt
  | None => ret tt
  end.

(** [worker_id is not None] *)
Definition is_not_none (worker_id : option Z) : bool :=
  match worker_id with
  | Some _ => true
  | None => false
  end.

(** Lines 99-104: what happens to an existing output. *)
Definition prepare_output (output : path) (incremental overwrite : bool)
    (worker_id : option Z) : M unit :=
  let inplace := incremental || is_not_none worker_id in
  output_exists <~ path_exists output ;;
  if output_exists && negb inplace then
    if overwrite then rmtree output else raise (OutputExists output)
  else ret tt.

(** Lines 118-128: the pool runs one execution per submitted id; the
    result of each is taken as it completes, and an exception is logged
    under the id of its worker. *)
Fixpoint pool_run (_worker : Z -> M RunCounts) (ids : list Z) : M unit :=
  match ids with
  | [] => ret tt
  | ii :: rest =>
      r <~ catch (_worker ii) ;;
      match r with
      | Return _ => ret tt
      | Raise exc => emit (Warning ii exc)
      end ;;;
      pool_run _worker rest
  end.

(** Lines 106-132: the worker closure and the choice between the pool
    and an inline run. *)
Definition dispatch (source : source_arg) (output : path)
    (incremental : bool) (workers : Z) (worker_id : option Z)
    (max_failures : option Z) : M unit :=
  let _worker := fun ii =>
    _build_parquet_worker ii source output incremental workers max_failures in
  match worker_id with
  | None =>
      if 1 <? workers
      then pool_run _worker (schedule E (seqZ 0 workers))
      else _worker 0 ;;; ret tt
  | Some wid => _worker wid ;;; ret tt
  end.

Definition build_parquet (source : source_arg) (output : path)
    (incremental overwrite : bool) (workers worker_id : option Z)
    (max_failures : option Z) : M unit :=
  workers <~ resolve_workers workers ;;
  check_worker_id worker_id workers overwrite ;;;
  prepare_output output incremental overwrite worker_id ;;;
  dispatch source output incremental workers worker_id max_failures.

End Builders.

Arguments Env : clear implicits.

(** The same environment with another clock: what a later call, or a call
    made by another process, reads when its workers start. *)
Definition with_clock {record : Type} (E : Env record) (clock : Z -> datetime)
  : Env record :=
{| iglob := iglob E; mtime := mtime E; extract := extract E; now := clock;
   cpus := cpus E; hash := hash E; from_parquet := from_parquet E;
   mktemp := mktemp E; buffer_size := buffer_size E; schedule := schedule E |}.

(** ** build_table *)

Section TableBuilder.

Context {record : Type}.
Variable E : Env record.

(** Modelled from the spec: [elbow.pipeline.Pipeline] with the sink left
    open; [Pipeline_loop] is this loop with the buffered writer as sink. *)
Fixpoint Pipeline_loop_sink {S : Type} (sink : S -> list record -> @M record S)
  (max_failures : option Z) (source : list ident)
  (counts : RunCounts) (st : S) : @M record (RunCounts * S) :=
match source with
| [] => ret (counts, st)
| p :: rest =>
    match extract E p with
    | Some records =>
        bind (sink st records) (fun st' =>
          Pipeline_loop_sink sink max_failures rest
            (Counts (total counts + 1) (succeeded counts + 1) (failed counts)) st')
    | None =>
        let counts' :=
          Counts (total counts + 1) (succeeded counts) (failed counts + 1) in
        if budget_exceeded max_failures (failed counts')
        then raise (MaxFailuresExceeded (failed counts'))
        else Pipeline_loop_sink sink max_failures rest counts' st
    end
end.



End TableBuilder.


(** ** Definitions used to state the properties *)

(** The worker executions a stretch of the trace starts, each with the
    number of workers it was told. *)
Definition started (t : list event) : list (Z * Z) :=
  omap (fun ev => match ev with
                  | WorkerStart ii workers => Some (ii, workers)
                  | _ => None
                  end) t.

(** The workers a stretch of the trace logs a warning for. *)
Definition warned (t : list event) : list Z :=
  omap (fun ev => match ev with
                  | Warning ii _ => Some ii
                  | _ => None
                  end) t.

Section Specification.

Context {record : Type}.
Variable E : Env record.

(** The subset of a source kept by one worker's partition filter. *)
Definition partition_set (worker_id workers : Z) (S : list ident) : gset ident :=
  list_to_set (partition_filter E worker_id workers S).

(** The records of the inputs whose extraction succeeds, in order. *)
Definition extracted (source : list ident) : list record :=
  concat (omap (extract E) source).

(** The number of inputs whose extraction fails. *)
Definition failures (source : list ident) : Z :=
  Z.of_nat (length (List.filter
    (fun p => match extract E p with Some _ => false | None => true end)
    source)).

(** The counts of a run that goes through the whole of its source. *)
Definition tally (source : list ident) : RunCounts :=
  Counts (Z.of_nat (length source))
         (Z.of_nat (length source) - failures source)
         (failures source).

(** Everything a writer has been handed: what it flushed to its file and
    what it still buffers. *)
Definition written (s : @state record) (w : @writer record) : list record :=
  rows (file_at (files s) (where_ w)) ++ buffer w.

(** Whether a run that goes through [source] meets more failures than
    [max_failures] allows. *)
Definition over_budget (max_failures : option Z) (source : list ident) : bool :=
(0 <? failures source) && budget_exceeded max_failures (failures source).

(** The number of workers a call works with once it is accepted. *)
Definition effective_workers (workers : option Z) : Z :=
match workers with
| None => 1
| Some w => if w =? -1 then cpu_count E else w
end.

(** Whether something exists at a path. *)
Definition exists_in (s : @state record) (p : path) : bool :=
  match files s !! p with
  | Some _ => true
  | None => false
  end.

(** Whether a worker started in state [s] consults the incremental index. *)
Definition consults_index (incremental : bool) (output : path)
    (s : @state record) : bool :=
  incremental && exists_in s output.

(** The slice of the source a worker started in state [s] goes through. *)
Definition owned_source (worker_id : Z) (source : source_arg) (output : path)
    (incremental : bool) (workers : Z) (s : @state record) : list ident :=
  partition_filter E worker_id workers
    (if consults_index incremental output s
     then List.filter
            (FileModifiedIndex_call E (from_parquet E (files s) output))
            (resolve_source E source)
     else resolve_source E source).

(** The events of a worker before it touches the file system. *)
Definition start_events (worker_id workers : Z) (incremental : bool)
    (output : path) (s : @state record) : list event :=
  WorkerStart worker_id workers
  :: (if consults_index incremental output s then [IndexLoad output] else []).

(** What a step may do to the files: touch nothing but one path. *)
Definition only_at (p : path) (s s' : @state record) : Prop :=
  trace s' = trace s /\ forall q, q <> p -> files s' !! q = files s !! q.

(** What a step has added to the trace. *)
Definition new_events (s s' : @state record) : list event :=
  drop (length (trace s)) (trace s').

(** The caller of [build_parquet] gets the worker's exception, not its
    counts. *)
Definition discard_counts (o : outcome RunCounts) : outcome unit :=
  match o with
  | Return _ => Return tt
  | Raise exc => Raise exc
  end.

(** The state the orchestrator is in once one pool execution has finished
    and its result has been taken. *)
Definition after_execution (_worker : Z -> @M record RunCounts)
    (s : @state record) (ii : Z) : @state record :=
  match _worker ii s with
  | (Return _, s') => s'
  | (Raise exc, s') => State (files s') (trace s' ++ [Warning ii exc])
  end.

End Specification.

Module Demo.
Definition demo_extract (p : ident) : option (list string) :=
  if String.prefix "bad" p then None else Some [p].
Definition env : Env string := {|
  iglob := fun _ => [];
  mtime := fun _ => 6;
  extract := demo_extract;
  now := fun _ => Datetime 2026 11 4 9 5 0;
  cpus := 4;
  hash := fun p => Z.of_nat (String.length p);
  from_parquet := fun _ _ => {[ "a" := 5; "bb" := 7 ]};
  mktemp := fun p => joinpath (parent p) ".tmp";
  buffer_size := 2;
  schedule := @rev Z
|}.
Definition s0 : @state string := State ∅ [].
(** A state in which the output directory holds an earlier partition. *)
Definition s_out : @state string :=
  State {[ ["out"] := Dir;
           ["out"; "old.parquet"] := File (File_ ["x"] true) ]} [].
(** A state in which a regular file stands at the output path. *)
Definition s_file : @state string :=
  State {[ ["out"] := File (File_ ["x"] true) ]} [].
End Demo.

(** * Properties *)

(** ** Formatting *)

Module PyFormatProps.

Lemma string_app_cons (c : ascii) (a b : string) :
  String c a +:+ b = String c (a +:+ b).
Proof. reflexivity. Qed.

Lemma string_app_assoc (a b c : string) : (a +:+ b) +:+ c = a +:+ b +:+ c.
Proof.
  induction a as [|x a IH]; [done|].
  by rewrite !string_app_cons, IH.
Qed.

Lemma list_ascii_app (a b : string) :
  String.list_ascii_of_string (a +:+ b)
  = String.list_ascii_of_string a ++ String.list_ascii_of_string b.
Proof.
  induction a as [|c a IH]; [done|].
  rewrite string_app_cons. simpl. by rewrite IH.
Qed.

Lemma length_string_app (a b : string) :
  String.length (a +:+ b) = (String.length a + String.length b)%nat.
Proof.
  induction a as [|c a IH]; [done|].
  rewrite string_app_cons. simpl. by rewrite IH.
Qed.

Lemma all_digits_app (a b : string) :
  all_digits (a +:+ b) = all_digits a && all_digits b.
Proof. unfold all_digits. by rewrite list_ascii_app, forallb_app. Qed.

Lemma parse_from_app (acc : Z) (a b : string) :
  parse_from acc (a +:+ b) = parse_from (parse_from acc a) b.
Proof. unfold parse_from. by rewrite list_ascii_app, fold_left_app. Qed.

Lemma pretty_N_char_digit (y : N) :
  (y < 10)%N ->
  is_digit (pretty_N_char y) = true /\ digit_value (pretty_N_char y) = Z.of_N y.
Proof.
  intros Hy.
  assert (y = 0 \/ y = 1 \/ y = 2 \/ y = 3 \/ y = 4 \/ y = 5 \/ y = 6
          \/ y = 7 \/ y = 8 \/ y = 9)%N as H by lia.
  repeat (destruct H as [->|H]; [by compute|]). subst. by compute.
Qed.

(** The digits stdpp's printer puts in front of its accumulator. *)
Lemma pretty_N_go_digits (x : N) : forall s : string,
  exists d : string,
    pretty_N_go x s = d +:+ s
    /\ all_digits d = true
    /\ (forall acc,
          parse_from acc d = acc * 10 ^ Z.of_nat (String.length d) + Z.of_N x)
    /\ ((0 < x)%N ->
          (0 < String.length d)%nat
          /\ 10 ^ (Z.of_nat (String.length d) - 1) <= Z.of_N x).
Proof.
  induction (N.lt_wf_0 x) as [x _ IH]. intros s.
  destruct (decide (x = 0%N)) as [->|Hx].
  - exists ""%string. rewrite pretty_N_go_0. simpl.
    split; [done|]. split; [done|]. split; [|lia].
    intros acc. unfold parse_from. simpl. lia.
  - assert (0 < x)%N as Hpos by lia.
    rewrite pretty_N_go_step by done.
    destruct (IH (x `div` 10)%N) with (s := String (pretty_N_char (x `mod` 10)) s)
      as (d & Hd & Hall & Hparse & Hlow).
    { apply N.div_lt; lia. }
    set (c := pretty_N_char (x `mod` 10)) in *.
    destruct (pretty_N_char_digit (x `mod` 10)%N) as [Hc1 Hc2].
    { apply N.mod_lt. lia. }
    fold c in Hc1, Hc2.
    exists (d +:+ String c ""). split; [|split; [|split]].
    + rewrite Hd. by rewrite string_app_assoc.
    + rewrite all_digits_app, Hall. unfold all_digits. simpl. by rewrite Hc1.
    + intros acc. rewrite parse_from_app, Hparse, length_string_app. simpl.
      unfold parse_from at 1. simpl. rewrite Hc2.
      replace (Z.of_nat (String.length d + 1)) with (Z.of_nat (String.length d) + 1)
        by lia.
      rewrite Z.pow_add_r by lia.
      pose proof (N.div_mod x 10 ltac:(lia)) as Hdm.
      apply (f_equal Z.of_N) in Hdm. rewrite N2Z.inj_add, N2Z.inj_mul in Hdm.
      simpl Z.of_N in Hdm at 2. lia.
    + intros _. rewrite length_string_app. simpl. split; [lia|].
      replace (Z.of_nat (String.length d + 1) - 1) with (Z.of_nat (String.length d))
        by lia.
      pose proof (N.div_mod x 10 ltac:(lia)) as Hdm.
      apply (f_equal Z.of_N) in Hdm. rewrite N2Z.inj_add, N2Z.inj_mul in Hdm.
      simpl Z.of_N in Hdm at 2.
      destruct (decide (x `div` 10 = 0)%N) as [H0|H0].
      * rewrite H0 in Hd. rewrite pretty_N_go_0 in Hd.
        assert (d = ""%string) as ->.
        { apply (f_equal String.length) in Hd. rewrite length_string_app in Hd.
          destruct d; [done|]. simpl in Hd. lia. }
        simpl. change (10 ^ Z.of_nat 0) with 1. lia.
      * destruct Hlow as [Hlen Hlow]; [by apply N.neq_0_lt_0|].
        replace (Z.of_nat (String.length d))
          with ((Z.of_nat (String.length d) - 1) + 1) by lia.
        rewrite Z.pow_add_r, Z.pow_1_r by lia.
        pose proof (N2Z.is_nonneg (x `mod` 10)). lia.
Qed.

Lemma pretty_Z_digits (n : Z) :
  0 <= n ->
  all_digits (pretty n) = true
  /\ parse_from 0 (pretty n) = n
  /\ (0 < String.length (pretty n))%nat
  /\ (n = 0 \/ 10 ^ (Z.of_nat (String.length (pretty n)) - 1) <= n).
Proof.
  intros Hn. destruct n as [|p|p]; [by compute; auto| |lia].
  change (pretty (Z.pos p)) with (pretty_N_go (N.pos p) "").
  destruct (pretty_N_go_digits (N.pos p) "") as (d & Hd & Hall & Hparse & Hlow).
  destruct Hlow as [Hlen Hlow]; [lia|].
  assert (d +:+ "" = d) as Hnil.
  { clear. induction d as [|c d IH]; [done|]. by rewrite string_app_cons, IH. }
  rewrite Hd, Hnil. repeat split; auto.
Qed.

Lemma zeros_spec (k : nat) :
  String.length (zeros k) = k /\ all_digits (zeros k) = true
  /\ parse_from 0 (zeros k) = 0.
Proof.
  unfold zeros. induction k as [|k (IH1 & IH2 & IH3)]; [done|].
  simpl. rewrite IH1. split; [done|]. split.
  - unfold all_digits in *. simpl. exact IH2.
  - unfold parse_from in *. simpl. exact IH3.
Qed.

(** [format(n, "0{width}d")] for a natural number. *)
Lemma format_0d_padded (width : nat) (n : Z) :
  (0 < width)%nat -> 0 <= n -> zero_padded width n (format_0d width n).
Proof.
  intros Hw Hn. unfold format_0d.
  destruct (Z.ltb_spec n 0) as [?|_]; [lia|].
  unfold zfill. fold (zeros (width - String.length (pretty n))).
  destruct (pretty_Z_digits n Hn) as (Hall & Hparse & Hlen & Hlow).
  destruct (zeros_spec (width - String.length (pretty n))) as (Z1 & Z2 & Z3).
  unfold zero_padded. rewrite all_digits_app, Z2, Hall, length_string_app, Z1.
  split; [done|]. split; [|split; [lia|]].
  - change (parse_digits ?s) with (parse_from 0 s).
    by rewrite parse_from_app, Z3.
  - intros Hlt. assert (String.length (pretty n) <= width)%nat; [|lia].
    destruct Hlow as [->|Hlow]; [change (String.length (pretty 0)) with 1%nat; lia|].
    assert (Z.of_nat (String.length (pretty n)) - 1 < Z.of_nat width); [|lia].
    apply (Z.pow_lt_mono_r_iff 10); lia.
Qed.

Lemma zero_padded_fixed (width : nat) (n : Z) (s : string) :
  zero_padded width n s -> n < 10 ^ Z.of_nat width -> fixed_width width n s = true.
Proof.
  intros (H1 & H2 & H3 & H4) Hlt. unfold fixed_width.
  rewrite H1, (H4 Hlt), Nat.eqb_refl. simpl. by apply Z.eqb_eq.
Qed.

Lemma fixed_width_length (width : nat) (n : Z) (s : string) :
  fixed_width width n s = true -> String.length s = width.
Proof.
  unfold fixed_width. rewrite !andb_true_iff, Nat.eqb_eq. tauto.
Qed.

(** [strftime("%Y%m%d%H%M%S")] on a valid [datetime]: six fields of fixed
    width, fourteen digits in all. *)
Lemma strftime_fields (t : datetime) :
  datetime_valid t ->
  exists Y m d H M S : string,
    strftime_YmdHMS t = Y +:+ m +:+ d +:+ H +:+ M +:+ S
    /\ fixed_width 4 (year t) Y = true /\ fixed_width 2 (month t) m = true
    /\ fixed_width 2 (day t) d = true /\ fixed_width 2 (hour t) H = true
    /\ fixed_width 2 (minute t) M = true /\ fixed_width 2 (second t) S = true
    /\ String.length (strftime_YmdHMS t) = 14%nat.
Proof.
  intros (HY & Hm & Hd & HH & HM & HS).
  assert (forall w n, (0 < w)%nat -> 0 <= n < 10 ^ Z.of_nat w ->
                      fixed_width w n (format_0d w n) = true) as Hfix.
  { intros w n Hw [H0 H1]. apply zero_padded_fixed; [|done].
    by apply format_0d_padded. }
  change (10 ^ Z.of_nat 4) with 10000 in Hfix.
  pose proof (Hfix 4%nat (year t) ltac:(lia)) as FY.
  pose proof (Hfix 2%nat) as Hfix2. change (10 ^ Z.of_nat 2) with 100 in Hfix2.
  exists (format_0d 4 (year t)), (format_0d 2 (month t)), (format_0d 2 (day t)),
    (format_0d 2 (hour t)), (format_0d 2 (minute t)), (format_0d 2 (second t)).
  split; [reflexivity|].
  assert (fixed_width 4 (year t) (format_0d 4 (year t)) = true) as F1
    by (apply (Hfix 4%nat); simpl; lia).
  assert (fixed_width 2 (month t) (format_0d 2 (month t)) = true) as F2
    by (apply Hfix2; lia).
  assert (fixed_width 2 (day t) (format_0d 2 (day t)) = true) as F3
    by (apply Hfix2; lia).
  assert (fixed_width 2 (hour t) (format_0d 2 (hour t)) = true) as F4
    by (apply Hfix2; lia).
  assert (fixed_width 2 (minute t) (format_0d 2 (minute t)) = true) as F5
    by (apply Hfix2; lia).
  assert (fixed_width 2 (second t) (format_0d 2 (second t)) = true) as F6
    by (apply Hfix2; lia).
  repeat (split; [assumption|]).
  unfold strftime_YmdHMS. rewrite !length_string_app.
  rewrite (fixed_width_length _ _ _ F1), (fixed_width_length _ _ _ F2),
    (fixed_width_length _ _ _ F3), (fixed_width_length _ _ _ F4),
    (fixed_width_length _ _ _ F5), (fixed_width_length _ _ _ F6).
  reflexivity.
Qed.

End PyFormatProps.

(** ** The writer and the extraction loop *)

(** ** The monad *)

Ltac run_monad :=
  unfold bind, ret, raise, emit, get_files, put_files, catch, path_exists in *;
  simpl in *.

Section WriterProps.

Context {record : Type}.
Variable E : Env record.

Local Abbreviation state := (@state record).
Local Abbreviation writer := (@writer record).
Local Abbreviation node := (@node record).
Local Abbreviation file := (@file record).

Lemma only_at_refl p (s : state) : only_at p s s.
Proof. split; auto. Qed.

Lemma only_at_trans p (s1 s2 s3 : state) :
  only_at p s1 s2 -> only_at p s2 s3 -> only_at p s1 s3.
Proof.
  intros [T1 F1] [T2 F2]. split; [congruence|].
  intros q Hq. rewrite F2, F1; auto.
Qed.

Lemma file_at_insert (p : path) (f : file) (fs : gmap path node) :
  file_at (<[p := File f]> fs) p = f.
Proof. unfold file_at. by rewrite lookup_insert_eq. Qed.

Lemma writer_flush_spec (w : writer) (s : state) :
  exists s',
    writer_flush w s = (Return (Writer (where_ w) []), s')
    /\ only_at (where_ w) s s'
    /\ rows (file_at (files s') (where_ w)) = written s w
    /\ footer (file_at (files s') (where_ w)) = footer (file_at (files s) (where_ w)).
Proof.
  unfold writer_flush, written. destruct w as [p buf]. simpl.
  destruct buf as [|r buf].
  - exists s. run_monad. rewrite app_nil_r. repeat split; auto.
  - eexists. run_monad. split; [reflexivity|]. simpl.
    rewrite !file_at_insert. simpl. repeat split; auto.
    intros q Hq. simpl. by rewrite lookup_insert_ne.
Qed.

Lemma writer_write_spec (w : writer) (records : list record) (s : state) :
  exists w' s',
    writer_write E w records s = (Return w', s')
    /\ where_ w' = where_ w
    /\ only_at (where_ w) s s'
    /\ written s' w' = written s w ++ records
    /\ footer (file_at (files s') (where_ w)) = footer (file_at (files s) (where_ w)).
Proof.
  unfold writer_write.
  destruct (buffer_size E <=? _)%nat.
  - destruct (writer_flush_spec (Writer (where_ w) (buffer w ++ records)) s)
      as (s' & Hrun & Hframe & Hrows & Hfoot).
    simpl in *. eexists _, s'. split; [exact Hrun|].
    repeat split; try apply Hframe; auto.
    unfold written in *. simpl in *. rewrite Hrows, app_nil_r, app_assoc. done.
  - eexists _, s. run_monad. split; [reflexivity|].
    repeat split; auto. unfold written. simpl. by rewrite app_assoc.
Qed.

Lemma writer_close_spec (w : writer) (s : state) :
  exists s',
    writer_close w s = (Return tt, s')
    /\ only_at (where_ w) s s'
    /\ files s' !! where_ w = Some (File (File_ (written s w) true)).
Proof.
  unfold writer_close.
  destruct (writer_flush_spec w s) as (s1 & Hrun & Hframe & Hrows & _).
  eexists. unfold bind at 1. rewrite Hrun. run_monad. split; [reflexivity|].
  simpl. rewrite lookup_insert_eq, Hrows. split; [|done].
  destruct Hframe as [HT HF]. split; simpl; [done|].
  intros q Hq. rewrite lookup_insert_ne by done. auto.
Qed.

Lemma extracted_cons_Some p rest records :
  extract E p = Some records ->
  extracted E (p :: rest) = records ++ extracted E rest.
Proof. intros H. unfold extracted. simpl. by rewrite H. Qed.

Lemma extracted_cons_None p rest :
  extract E p = None -> extracted E (p :: rest) = extracted E rest.
Proof. intros H. unfold extracted. simpl. by rewrite H. Qed.

Lemma failures_cons_Some p rest records :
  extract E p = Some records -> failures E (p :: rest) = failures E rest.
Proof. intros H. unfold failures. simpl. by rewrite H. Qed.

Lemma failures_cons_None p rest :
  extract E p = None -> failures E (p :: rest) = 1 + failures E rest.
Proof. intros H. unfold failures. simpl. rewrite H. simpl length. lia. Qed.

Lemma failures_nonneg source : 0 <= failures E source.
Proof. unfold failures. lia. Qed.

Lemma budget_exceeded_mono mf k k' :
  k <= k' -> budget_exceeded mf k = true -> budget_exceeded mf k' = true.
Proof.
  destruct mf as [n|]; simpl; [|done].
  rewrite !Z.ltb_lt. lia.
Qed.

(** The extraction loop: it touches nothing but the writer's file, hands
    the writer every extracted record, and raises exactly when the
    failures come to exceed the budget. *)
Lemma Pipeline_loop_spec mf source : forall counts (w : writer) (s : state),
  exists o s',
    Pipeline_loop E mf source counts w s = (o, s')
    /\ only_at (where_ w) s s'
    /\ footer (file_at (files s') (where_ w)) = footer (file_at (files s) (where_ w))
    /\ match o with
       | Return (c, w') =>
           where_ w' = where_ w
           /\ written s' w' = written s w ++ extracted E source
           /\ c = Counts (total counts + Z.of_nat (length source))
                         (succeeded counts + Z.of_nat (length source)
                            - failures E source)
                         (failed counts + failures E source)
           /\ (failures E source = 0
               \/ budget_exceeded mf (failed counts + failures E source) = false)
       | Raise e =>
           exists k, e = MaxFailuresExceeded k
                     /\ budget_exceeded mf k = true
                     /\ failed counts < k <= failed counts + failures E source
       end.
Proof.
  induction source as [|p rest IH]; intros counts w s.
  - exists (Return (counts, w)), s. simpl. unfold ret.
    split; [done|]. split; [apply only_at_refl|]. split; [done|].
    unfold extracted, failures. simpl. rewrite app_nil_r.
    repeat split; auto. destruct counts; simpl; f_equal; lia.
  - simpl. destruct (extract E p) as [records|] eqn:Hx.
    + destruct (writer_write_spec w records s)
        as (w1 & s1 & Hrun & Hw & Hframe & Hwr & Hfoot).
      unfold bind. rewrite Hrun.
      destruct (IH (Counts (total counts + 1) (succeeded counts + 1) (failed counts))
                   w1 s1) as (o & s' & Hrun' & Hframe' & Hfoot' & Hpost).
      exists o, s'. split; [exact Hrun'|]. rewrite Hw in *.
      split; [eapply only_at_trans; eauto|]. split; [congruence|].
      destruct o as [[c w']|e]; simpl in *.
      * destruct Hpost as (-> & -> & -> & Hb).
        rewrite (extracted_cons_Some _ _ _ Hx), (failures_cons_Some _ _ _ Hx), Hwr.
        rewrite app_assoc. repeat split; auto. f_equal; lia.
      * destruct Hpost as (k & -> & Hk & Hr).
        exists k. rewrite (failures_cons_Some _ _ _ Hx). auto.
    + rewrite (failures_cons_None _ _ Hx), (extracted_cons_None _ _ Hx).
      pose proof (failures_nonneg rest) as Hnn.
      destruct (budget_exceeded mf (failed counts + 1)) eqn:Hb.
      * exists (Raise (MaxFailuresExceeded (failed counts + 1))), s.
        unfold raise. split; [done|]. split; [apply only_at_refl|].
        split; [done|]. exists (failed counts + 1). repeat split; auto; lia.
      * destruct (IH (Counts (total counts + 1) (succeeded counts) (failed counts + 1))
                     w s) as (o & s' & Hrun' & Hframe' & Hfoot' & Hpost).
        exists o, s'. split; [exact Hrun'|]. split; [done|]. split; [done|].
        destruct o as [[c w']|e]; simpl in *.
        -- destruct Hpost as (-> & -> & -> & Hbb).
           repeat split; auto.
           ++ f_equal; lia.
           ++ right. destruct Hbb as [H0|Hbb].
              ** rewrite H0. by rewrite Z.add_0_r in *.
              ** rewrite <- Hbb. f_equal. lia.
        -- destruct Hpost as (k & -> & Hk & Hr).
           exists k. repeat split; auto; lia.
Qed.

End WriterProps.

(** ** Directories and the atomic write *)

Section FsProps.

Context {record : Type}.
Variable E : Env record.

Local Abbreviation state := (@state record).
Local Abbreviation writer := (@writer record).
Local Abbreviation node := (@node record).
Local Abbreviation file := (@file record).

Lemma parent_joinpath (p : path) (name : string) : parent (joinpath p name) = p.
Proof. unfold parent, joinpath. apply removelast_last. Qed.

Lemma joinpath_not_prefix (p : path) (name : string) :
  ~ joinpath p name `prefix_of` p.
Proof. apply prefix_snoc_not. Qed.

Lemma joinpath_ne (p : path) (name : string) : joinpath p name <> p.
Proof.
  unfold joinpath. intros H. apply (f_equal length) in H.
  rewrite length_app in H. simpl in H. lia.
Qed.

Lemma mkdir1_spec (p : path) (last : bool) (fs : gmap path node) :
  match mkdir1 p last fs with
  | Return fs' =>
      fs' !! p = Some Dir
      /\ (forall q, q <> p -> fs' !! q = fs !! q)
      /\ (forall q n, fs !! q = Some n -> fs' !! q = Some n)
  | Raise e =>
      (exists f, fs !! p = Some (File f))
      /\ e = (if last then MkdirFileExists p else NotADirectory p)
  end.
Proof.
  unfold mkdir1. destruct (fs !! p) as [[|f]|] eqn:Hp.
  - repeat split; auto.
  - split; eauto.
  - rewrite lookup_insert_eq. split; [done|]. split.
    + intros q Hq. by rewrite lookup_insert_ne.
    + intros q n Hq. rewrite lookup_insert_ne; [done|]. congruence.
Qed.

(** [mkdir -p]: on success the directory is there, nothing outside the
    chain of its ancestors has changed, and nothing that existed has been
    replaced; on failure a regular file stands in the way. *)
Lemma mkdirs_spec (rest : path) : forall (pre : path) (fs : gmap path node),
  match mkdirs pre rest fs with
  | Return fs' =>
      fs' !! (pre ++ rest) = Some Dir
      /\ (forall q, ~ q `prefix_of` (pre ++ rest) -> fs' !! q = fs !! q)
      /\ (forall q n, fs !! q = Some n -> fs' !! q = Some n)
  | Raise e =>
      exists q (f : file), q `prefix_of` (pre ++ rest) /\ fs !! q = Some (File f)
                  /\ (e = MkdirFileExists q \/ e = NotADirectory q)
  end.
Proof.
  induction rest as [|c rest IH]; intros pre fs; simpl.
  - rewrite app_nil_r. pose proof (mkdir1_spec pre true fs) as H.
    destruct (mkdir1 pre true fs) as [fs'|e].
    + destruct H as (H1 & H2 & H3). repeat split; auto.
      intros q Hq. apply H2. intros ->. by apply Hq.
    + destruct H as ((f & Hf) & ->). exists pre, f. auto.
  - pose proof (mkdir1_spec pre false fs) as H.
    destruct (mkdir1 pre false fs) as [fs1|e].
    + destruct H as (H1 & H2 & H3).
      specialize (IH (pre ++ [c]) fs1). rewrite <- app_assoc in IH. simpl in IH.
      destruct (mkdirs (pre ++ [c]) rest fs1) as [fs'|e].
      * destruct IH as (I1 & I2 & I3). repeat split; auto.
        intros q Hq. rewrite I2 by done. apply H2. intros ->.
        apply Hq. by apply prefix_app_r.
      * destruct IH as (q & f & Hq & Hf & He).
        destruct (fs !! q) as [n|] eqn:Hfq.
        -- pose proof (H3 _ _ Hfq) as Hfq1.
           exists q, f. split; [done|]. split; [|done]. unfold path in *. congruence.
        -- destruct (decide (q = pre)) as [->|Hne]; [unfold path in *; congruence|].
           rewrite H2 in Hf by done. unfold path in *. congruence.
    + destruct H as ((f & Hf) & ->). exists pre, f.
      split; [by apply prefix_app_r|]. auto.
Qed.

Lemma mkdir_parents_spec (p : path) (s : state) :
  match mkdir_parents p s with
  | (Return _, s') =>
      files s' !! p = Some Dir
      /\ (forall q, ~ q `prefix_of` p -> files s' !! q = files s !! q)
      /\ (forall q n, files s !! q = Some n -> files s' !! q = Some n)
      /\ trace s' = trace s ++ [Mkdir p]
  | (Raise e, s') =>
      s' = s
      /\ exists q (f : file), q `prefix_of` p /\ files s !! q = Some (File f)
                     /\ (e = MkdirFileExists q \/ e = NotADirectory q)
  end.
Proof.
  unfold mkdir_parents. pose proof (mkdirs_spec p [] (files s)) as H.
  simpl in H. destruct (mkdirs [] p (files s)) as [fs'|e]; simpl.
  - destruct H as (H1 & H2 & H3). auto.
  - split; [done|]. exact H.
Qed.

(** The write of a partition: staged under the temporary name, published
    under the final name on clean completion, discarded on an abort. *)
Lemma write_partition_spec (final : path) (source : list ident)
    (mf : option Z) (s : state) :
  exists o s',
    write_partition E final source mf s = (o, s')
    /\ (forall q, q <> mktemp E final -> q <> final -> files s' !! q = files s !! q)
    /\ match o with
       | Return c =>
           c = tally E source
           /\ (failures E source = 0
               \/ budget_exceeded mf (failures E source) = false)
           /\ files s' !! final = Some (File (File_ (extracted E source) true))
           /\ trace s' = trace s ++ [AtomicOpen final (mktemp E final); Publish final]
       | Raise e =>
           (exists k, e = MaxFailuresExceeded k /\ budget_exceeded mf k = true
                      /\ 0 < k <= failures E source)
           /\ (mktemp E final <> final -> files s' !! final = files s !! final)
           /\ files s' !! mktemp E final = None
           /\ trace s' = trace s ++ [AtomicOpen final (mktemp E final);
                                     Discard final (mktemp E final)]
       end.
Proof.
  unfold write_partition, atomicopen, BufferedParquetWriter, Pipeline_run.
  set (tmp := mktemp E final).
  set (s1 := State (<[tmp := File (File_ [] false)]> (files s))
                   (trace s ++ [AtomicOpen final tmp])).
  destruct (Pipeline_loop_spec E mf source (Counts 0 0 0) (Writer tmp []) s1)
    as (o & s2 & Hrun & [HT HF] & _ & Hpost).
  simpl in HT, HF, Hpost. unfold bind at 1. rewrite Hrun.
  destruct o as [[c w']|e].
  - destruct Hpost as (Hw & Hwr & -> & Hb).
    destruct (writer_close_spec w' s2) as (s3 & Hclose & [HT3 HF3] & Hfile).
    unfold bind. simpl. rewrite Hclose. unfold ret.
    rewrite Hw in *. rewrite Hfile.
    eexists _, _. split; [reflexivity|]. simpl.
    assert (written s1 (Writer tmp []) = []) as Hw0.
    { unfold written. simpl. by rewrite file_at_insert. }
    rewrite Hw0 in Hwr. simpl in Hwr. rewrite Hwr. split; [|split; [|split; [|split]]].
    + intros q Hq1 Hq2. rewrite lookup_insert_ne, lookup_delete_ne by done.
      rewrite HF3, HF by done. simpl. by rewrite lookup_insert_ne.
    + unfold tally. f_equal; lia.
    + done.
    + by rewrite lookup_insert_eq.
    + rewrite HT3, HT. simpl. by rewrite <- app_assoc.
  - eexists _, _. split; [reflexivity|]. simpl. split; [|split; [|split; [|split]]].
    + intros q Hq1 Hq2. rewrite lookup_delete_ne by done.
      rewrite HF by done. simpl. by rewrite lookup_insert_ne.
    + destruct Hpost as (k & -> & Hk & Hr). exists k. auto.
    + intros Hne. rewrite lookup_delete_ne by done.
      rewrite HF by done. simpl. by rewrite lookup_insert_ne.
    + by rewrite lookup_delete_eq.
    + rewrite HT. simpl. by rewrite <- app_assoc.
Qed.

End FsProps.

(** ** The worker *)

Section WorkerProps.

Context {record : Type}.
Variable E : Env record.

Local Abbreviation state := (@state record).
Local Abbreviation writer := (@writer record).
Local Abbreviation node := (@node record).
Local Abbreviation file := (@file record).

Lemma state_eta (s : state) : State (files s) (trace s) = s.
Proof. by destruct s. Qed.

Lemma filtered_source_spec wid source output incremental W (s : state) :
  filtered_source E wid source output incremental W s =
  (Return (owned_source E wid source output incremental W s),
   State (files s)
         (trace s ++ (if consults_index incremental output s
                      then [IndexLoad output] else []))).
Proof.
  unfold filtered_source, incremental_filter, owned_source, consults_index,
    exists_in, FileModifiedIndex_from_parquet.
  run_monad. destruct incremental, (files s !! output); simpl;
    rewrite ?app_nil_r, ?state_eta; reflexivity.
Qed.

(** What a run of the worker can be: the phases it goes through and what
    each leaves behind. *)
Lemma worker_spec wid source output incremental W mf (s : state) :
  let final := partition_path output (now E wid) wid W in
  let tmp := mktemp E final in
  let src := owned_source E wid source output incremental W s in
  let t0 := start_events wid W incremental output s in
  exists o s',
    _build_parquet_worker E wid source output incremental W mf s = (o, s')
    /\ match o with
       | Return c =>
           files s !! final = None
           /\ c = tally E src
           /\ (failures E src = 0 \/ budget_exceeded mf (failures E src) = false)
           /\ files s' !! final = Some (File (File_ (extracted E src) true))
           /\ (tmp <> output -> files s' !! output = Some Dir)
           /\ (forall q n, q <> tmp -> q <> final ->
                 files s !! q = Some n -> files s' !! q = Some n)
           /\ (forall q, q <> tmp -> q <> final -> ~ q `prefix_of` output ->
                 files s' !! q = files s !! q)
           /\ trace s' = trace s ++ t0
                ++ [Mkdir output; AtomicOpen final tmp; Publish final]
       | Raise e =>
           (is_Some (files s !! final) /\ e = PartitionExists final
            /\ files s' = files s /\ trace s' = trace s ++ t0)
           \/ (files s !! final = None
               /\ (exists q (f : file), q `prefix_of` output /\ files s !! q = Some (File f)
                     /\ (e = MkdirFileExists q \/ e = NotADirectory q))
               /\ files s' = files s /\ trace s' = trace s ++ t0)
           \/ (files s !! final = None
               /\ (exists k, e = MaxFailuresExceeded k
                     /\ budget_exceeded mf k = true /\ 0 < k <= failures E src)
               /\ files s' !! tmp = None
               /\ (tmp <> final -> files s' !! final = None)
               /\ (forall q n, q <> tmp -> q <> final ->
                     files s !! q = Some n -> files s' !! q = Some n)
               /\ trace s' = trace s ++ t0
                    ++ [Mkdir output; AtomicOpen final tmp; Discard final tmp])
       end.
Proof.
  intros final tmp src t0.
  unfold _build_parquet_worker. unfold bind at 1. unfold emit at 1.
  unfold bind at 1. rewrite filtered_source_spec.
  set (sa := State (files s) (trace s ++ [WorkerStart wid W])).
  change (consults_index incremental output sa)
    with (consults_index incremental output s).
  change (owned_source E wid source output incremental W sa) with src.
  set (s1 := State (files sa) _).
  assert (files s1 = files s) as Hf1 by reflexivity.
  assert (trace s1 = trace s ++ t0) as Ht1.
  { subst s1 sa t0. unfold start_events. simpl. by rewrite <- app_assoc. }
  clearbody s1. clear sa.
  fold final. unfold bind at 1. unfold path_exists at 1.
  rewrite Hf1. destruct (files s !! final) as [n|] eqn:Hfinal.
  - exists (Raise (PartitionExists final)), s1. split; [reflexivity|].
    left. eauto.
  - unfold bind at 1. subst final. unfold partition_path at 1.
    rewrite parent_joinpath. fold (partition_path output (now E wid) wid W).
    set (final := partition_path output (now E wid) wid W) in *.
    pose proof (mkdir_parents_spec output s1) as Hmk.
    destruct (mkdir_parents output s1) as [[[]|e] s2].
    + destruct Hmk as (Hdir & Hframe & Hkeep & Ht2).
      destruct (write_partition_spec E final src mf s2)
        as (o & s' & Hrun & Hfr & Hpost).
      exists o, s'. split; [exact Hrun|].
      assert (~ final `prefix_of` output) as Hnp by apply joinpath_not_prefix.
      destruct o as [c|e].
      * destruct Hpost as (-> & Hb & Hfile & Ht).
        repeat split; auto.
        -- intros Hne. rewrite Hfr; auto. intros Heq.
           apply (joinpath_ne output (partition_name (now E wid) wid W)).
           symmetry. exact Heq.
        -- intros q n Hq1 Hq2 Hq. rewrite Hfr by done. apply Hkeep.
           by rewrite Hf1.
        -- intros q Hq1 Hq2 Hq3. rewrite Hfr, Hframe by done. by rewrite Hf1.
        -- rewrite Ht, Ht2, Ht1. by rewrite <- !app_assoc.
      * destruct Hpost as (Hk & Hfin & Htmp & Ht).
        right. right. repeat split; auto.
        -- intros Hne. rewrite Hfin, Hframe by done. by rewrite Hf1.
        -- intros q n Hq1 Hq2 Hq. rewrite Hfr by done. apply Hkeep.
           by rewrite Hf1.
        -- rewrite Ht, Ht2, Ht1. by rewrite <- !app_assoc.
    + destruct Hmk as (-> & q & f & Hq & Hfq & He).
      exists (Raise e), s1. split; [reflexivity|].
      right. left. rewrite Hf1 in Hfq. repeat split; eauto.
Qed.

End WorkerProps.

Import PyFormatProps.

(** ** The claims about the partition worker *)

Section WorkerClaims.

Context {record : Type}.
Variable E : Env record.

Local Abbreviation state := (@state record).

Lemma elem_of_partition_filter (w W : Z) (S : list ident) (x : ident) :
  1 < W ->
  x ∈ partition_filter E w W S <-> x ∈ S /\ hash E x `mod` W = w.
Proof.
  intros HW. unfold partition_filter.
  destruct (Z.ltb_spec 1 W) as [_|?]; [|lia].
  rewrite !list_elem_of_In, filter_In. unfold hash_partitioner.
  rewrite Z.eqb_eq. reflexivity.
Qed.

Lemma partition_filter_serial (w W : Z) (S : list ident) :
  W <= 1 -> partition_filter E w W S = S.
Proof.
  intros HW. unfold partition_filter.
  destruct (Z.ltb_spec 1 W) as [?|_]; [lia|done].
Qed.

Lemma partition_owner_in_range (W : Z) (x : ident) :
  1 < W -> 0 <= hash E x `mod` W < W.
Proof. intros HW. apply Z.mod_pos_bound. lia. Qed.

(** C1: for a fixed number of workers [W > 1], a fixed hash and a fixed
    source [S], the subsets kept by the partition filter for
    [worker_id = 0 .. W-1] have union [S] and are pairwise disjoint:
    every item of [S] is kept by exactly one worker. *)
Theorem partition_complete_disjoint (W : Z) (S : list ident) :
  1 < W ->
  ⋃ ((fun w => partition_set E w W S) <$> seqZ 0 W) = list_to_set S
  /\ (forall w1 w2, w1 <> w2 -> partition_set E w1 W S ## partition_set E w2 W S)
  /\ (forall x, x ∈ S ->
        exists w, 0 <= w < W /\ x ∈ partition_filter E w W S
                  /\ forall w', x ∈ partition_filter E w' W S -> w' = w).
Proof.
  intros HW. split; [|split].
  - apply set_eq. intros x.
    rewrite elem_of_union_list, elem_of_list_to_set. split.
    + intros (X & HX & Hx). apply list_elem_of_fmap in HX as (w & -> & _).
      unfold partition_set in Hx. rewrite elem_of_list_to_set in Hx.
      apply elem_of_partition_filter in Hx; tauto.
    + intros Hx. exists (partition_set E (hash E x `mod` W) W S). split.
      * apply list_elem_of_fmap. exists (hash E x `mod` W). split; [done|].
        apply elem_of_seqZ. pose proof (partition_owner_in_range W x HW). lia.
      * unfold partition_set. rewrite elem_of_list_to_set.
        apply elem_of_partition_filter; auto.
  - intros w1 w2 Hne. apply elem_of_disjoint. intros x.
    unfold partition_set. rewrite !elem_of_list_to_set.
    rewrite !elem_of_partition_filter by done. intros [_ H1] [_ H2]. congruence.
  - intros x Hx. exists (hash E x `mod` W).
    split; [by apply partition_owner_in_range|]. split.
    + apply elem_of_partition_filter; auto.
    + intros w'. rewrite elem_of_partition_filter by done. intros [_ H]. done.
Qed.

(** C2: a run of the worker that aborts once past the check of its
    partition path (the failure budget exceeded, or any other exception
    before the commit) leaves no file at the final path; an abort of any
    kind leaves the final path as it was; the final path comes into
    existence only through a clean completion, holding every extracted
    record and its footer; and a run whose failures exceed [max_failures]
    does abort. *)
Theorem abort_leaves_no_partition wid source output incremental W mf
    (s : state) o s' :
  let final := partition_path output (now E wid) wid W in
  let src := owned_source E wid source output incremental W s in
  mktemp E final <> final ->
  _build_parquet_worker E wid source output incremental W mf s = (o, s') ->
  (forall e, o = Raise e -> e <> PartitionExists final ->
     files s' !! final = None)
  /\ (forall e, o = Raise e -> files s' !! final = files s !! final)
  /\ (files s !! final = None -> is_Some (files s' !! final) ->
        exists c, o = Return c
          /\ files s' !! final = Some (File (File_ (extracted E src) true)))
  /\ (forall n, mf = Some n -> 0 <= n < failures E src ->
        exists e, o = Raise e).
Proof.
  intros final src Htmp Hrun.
  destruct (worker_spec E wid source output incremental W mf s)
    as (o1 & s1 & Hrun1 & Hpost).
  fold final src in Hpost. rewrite Hrun in Hrun1. injection Hrun1 as <- <-.
  destruct o as [c|e].
  - destruct Hpost as (Hfree & -> & Hb & Hfile & _).
    split; [discriminate|]. split; [discriminate|]. split.
    + intros _ _. eauto.
    + intros n -> [Hn Hlt]. exfalso. destruct Hb as [Hb|Hb]; [lia|].
      simpl in Hb. apply Z.ltb_ge in Hb. lia.
  - destruct Hpost as [(Hex & -> & Hfiles & _)
                      |[(Hfree & _ & Hfiles & _)
                       |(Hfree & _ & _ & Hfin & _)]].
    + split; [intros e' [= <-] Hne; done|].
      split; [intros e' _; by rewrite Hfiles|].
      split; [intros Hnone; destruct Hex as [n Hn]; congruence|]. eauto.
    + split; [intros e' _ _; by rewrite Hfiles|].
      split; [intros e' _; by rewrite Hfiles|].
      split; [intros Hnone Hs; rewrite Hfiles, Hnone in Hs; by destruct Hs|].
      eauto.
    + specialize (Hfin Htmp).
      split; [done|]. split; [intros e' _; congruence|].
      split; [intros _ Hs; rewrite Hfin in Hs; by destruct Hs|]. eauto.
Qed.

Lemma new_events_app (s s' : state) (t : list event) :
  trace s' = trace s ++ t -> new_events s s' = t.
Proof. intros H. unfold new_events. rewrite H. apply drop_app_length. Qed.

Lemma consults_index_true incremental output (s : state) :
  consults_index incremental output s = true
  <-> incremental = true /\ is_Some (files s !! output).
Proof.
  unfold consults_index, exists_in. rewrite andb_true_iff.
  destruct (files s !! output) as [n|]; split; intros [H1 H2]; split; eauto;
    try done; by destruct H2.
Qed.

(** C3: the worker's output path is the file
    [part-{YYYYMMDDHHMMSS}-{worker_id:04d}-of-{workers:04d}.parquet] directly
    inside the output directory, the timestamp being the fourteen digits
    of the worker's start time; when something already exists at that path
    the worker raises and leaves every file as it was; and the partition
    of a completed run is published at that path. *)
Theorem partition_path_convention wid source output incremental W mf
    (s : state) o s' :
  let final := partition_path output (now E wid) wid W in
  datetime_valid (now E wid) -> 0 <= wid -> 0 <= W ->
  _build_parquet_worker E wid source output incremental W mf s = (o, s') ->
  (exists ts a b : string,
      final = joinpath output
                ("part-" +:+ ts +:+ "-" +:+ a +:+ "-of-" +:+ b +:+ ".parquet")
      /\ String.length ts = 14%nat
      /\ (exists Y m d H M S : string,
            ts = Y +:+ m +:+ d +:+ H +:+ M +:+ S
            /\ fixed_width 4 (year (now E wid)) Y = true
            /\ fixed_width 2 (month (now E wid)) m = true
            /\ fixed_width 2 (day (now E wid)) d = true
            /\ fixed_width 2 (hour (now E wid)) H = true
            /\ fixed_width 2 (minute (now E wid)) M = true
            /\ fixed_width 2 (second (now E wid)) S = true)
      /\ zero_padded 4 wid a /\ zero_padded 4 W b)
  /\ parent final = output
  /\ (is_Some (files s !! final) ->
        o = Raise (PartitionExists final) /\ files s' = files s)
  /\ (forall c, o = Return c ->
        files s !! final = None /\ is_Some (files s' !! final)
        /\ Publish final ∈ new_events s s').
Proof.
  intros final Hvalid Hwid HW Hrun. split; [|split; [|split]].
  - exists (strftime_YmdHMS (now E wid)), (format_04d wid), (format_04d W).
    split; [reflexivity|].
    destruct (strftime_fields (now E wid) Hvalid)
      as (Y & m & d & H & M & S & Hts & F1 & F2 & F3 & F4 & F5 & F6 & Hlen).
    split; [exact Hlen|]. split.
    + exists Y, m, d, H, M, S. auto 10.
    + split; apply format_0d_padded; lia.
  - apply parent_joinpath.
  - intros Hex.
    destruct (worker_spec E wid source output incremental W mf s)
      as (o1 & s1 & Hrun1 & Hpost).
    fold final in Hpost. rewrite Hrun in Hrun1. injection Hrun1 as <- <-.
    destruct o as [c|e].
    + destruct Hpost as (Hfree & _). rewrite Hfree in Hex. by destruct Hex.
    + destruct Hpost as [(_ & -> & Hfiles & _)
                        |[(Hfree & _)|(Hfree & _)]]; [done|..];
        rewrite Hfree in Hex; by destruct Hex.
  - intros c ->.
    destruct (worker_spec E wid source output incremental W mf s)
      as (o1 & s1 & Hrun1 & Hpost).
    fold final in Hpost. rewrite Hrun in Hrun1. injection Hrun1 as <- <-.
    destruct Hpost as (Hfree & _ & _ & Hfile & _ & _ & _ & Ht).
    split; [done|]. split; [by rewrite Hfile|].
    rewrite (new_events_app _ _ _ Ht).
    rewrite !elem_of_app, !elem_of_cons. auto.
Qed.

Lemma incremental_filter_run incremental output (source : list ident) (s : state) :
  exists kept s1,
    incremental_filter E incremental output source s = (Return kept, s1)
    /\ kept = (if consults_index incremental output s
               then List.filter
                      (FileModifiedIndex_call E (from_parquet E (files s) output))
                      source
               else source)
    /\ files s1 = files s.
Proof.
  unfold incremental_filter, consults_index, exists_in,
    FileModifiedIndex_from_parquet. run_monad.
  destruct incremental, (files s !! output); simpl; eauto.
Qed.

(** C7: the worker loads the incremental index, and filters its source
    through it, exactly when [incremental] is set and the output
    directory exists as the worker starts; the filter keeps exactly the
    inputs that are new or whose modification time is newer than the
    recorded one; the hash partition filter is applied to what this
    filter has kept; and what the worker then does, it does to that slice:
    the counts it returns and the records of the partition it publishes
    are those of the slice, an abort is over the failures of the slice,
    and, its path being free, it returns exactly when the failures of the
    slice are within the budget. *)
Theorem incremental_index_iff wid source output incremental W mf (s : state) :
  let index := from_parquet E (files s) output in
  let kept :=
    if incremental && exists_in s output
    then List.filter (FileModifiedIndex_call E index) (resolve_source E source)
    else resolve_source E source in
  let slice := partition_filter E wid W kept in
  let final := partition_path output (now E wid) wid W in
  (forall x,
      x ∈ kept <->
      x ∈ resolve_source E source
      /\ (incremental = true -> is_Some (files s !! output) ->
            index !! x = None
            \/ exists t, index !! x = Some t /\ t < mtime E x))
  /\ exists o s',
       _build_parquet_worker E wid source output incremental W mf s = (o, s')
       /\ (IndexLoad output ∈ new_events s s'
           <-> incremental = true /\ is_Some (files s !! output))
       /\ (forall c, o = Return c ->
             c = tally E slice
             /\ rows (file_at (files s') final) = extracted E slice)
       /\ (forall k, o = Raise (MaxFailuresExceeded k) ->
             budget_exceeded mf k = true /\ 0 < k <= failures E slice)
       /\ (files s !! final = None ->
           (forall q (f : @file record),
               q `prefix_of` output -> files s !! q <> Some (File f)) ->
           ((exists c, o = Return c)
            <-> failures E slice = 0
                \/ budget_exceeded mf (failures E slice) = false)).
Proof.
  intros index kept slice final.
  change (incremental && exists_in s output)
    with (consults_index incremental output s) in kept.
  split.
  - intros x. subst kept.
    destruct (consults_index incremental output s) eqn:Hc.
    + apply consults_index_true in Hc as [Hi Hex].
      rewrite list_elem_of_In, filter_In, <- list_elem_of_In.
      unfold FileModifiedIndex_call. fold index.
      destruct (index !! x) as [t|] eqn:Hx.
      * rewrite Z.ltb_lt. split.
        -- intros [H1 H2]. split; [done|]. intros _ _. right. eauto.
        -- intros [H1 H2]. split; [done|].
           destruct (H2 Hi Hex) as [?|(t' & [= <-] & ?)]; done.
      * split; intros [H1 _]; split; auto.
    + split; [|tauto]. intros Hx. split; [done|]. intros Hi Hex.
      assert (consults_index incremental output s = true)
        by (apply consults_index_true; auto). congruence.
  - destruct (worker_spec E wid source output incremental W mf s)
      as (o & s' & Hrun & Hpost).
    change (owned_source E wid source output incremental W s) with slice in Hpost.
    fold final in Hpost.
    exists o, s'. split; [exact Hrun|]. split; [|split; [|split]].
    + rewrite <- consults_index_true. unfold start_events in Hpost.
      destruct o as [c|e].
      * destruct Hpost as (_ & _ & _ & _ & _ & _ & _ & Ht).
        rewrite (new_events_app _ _ _ Ht).
        destruct (consults_index incremental output s);
          rewrite !elem_of_app, !elem_of_cons, ?elem_of_nil;
          intuition (discriminate || auto).
      * destruct Hpost as [(_ & _ & _ & Ht)
                          |[(_ & _ & _ & Ht)|(_ & _ & _ & _ & _ & Ht)]];
          rewrite (new_events_app _ _ _ Ht);
          destruct (consults_index incremental output s);
          rewrite ?elem_of_app, !elem_of_cons, ?elem_of_nil;
          intuition (discriminate || auto).
    + intros c ->. destruct Hpost as (_ & -> & _ & Hfile & _).
      split; [done|]. unfold file_at. by rewrite Hfile.
    + intros k ->.
      destruct Hpost as [(_ & [=] & _)
                        |[(_ & (q & f & _ & _ & [[=]|[=]]) & _)
                         |(_ & (k' & [= <-] & Hk & Hr) & _)]].
      done.
    + intros Hfree Hclear. split.
      * intros [c ->]. by destruct Hpost as (_ & _ & Hb & _).
      * intros Hb. destruct o as [c|e]; [eauto|]. exfalso.
        destruct Hpost as [(Hex & _)
                          |[(_ & (q & f & Hq & Hf & _) & _)
                           |(_ & (k & _ & Hk & Hr) & _)]].
        -- rewrite Hfree in Hex. by destruct Hex.
        -- by apply (Hclear q f).
        -- assert (budget_exceeded mf (failures E slice) = true)
             by (eapply budget_exceeded_mono; [|exact Hk]; lia).
           destruct Hb as [Hb|Hb]; [lia|congruence].
Qed.


End WorkerClaims.

(** ** The orchestrator *)

Section OrchestratorProps.

Context {record : Type}.
Variable E : Env record.

Local Abbreviation state := (@state record).

Lemma resolve_workers_run (workers : option Z) (s : state) :
  resolve_workers E workers s =
  (match workers with
   | None => Return 1
   | Some w =>
       if w =? -1 then Return (cpu_count E)
       else if w <=? 0 then Raise (InvalidWorkers w)
       else Return w
   end, s).
Proof.
  unfold resolve_workers. destruct workers as [w|]; [|done].
  destruct (w =? -1); [done|]. by destruct (w <=? 0).
Qed.

Lemma resolve_workers_positive (workers : option Z) (s : state) W s' :
  resolve_workers E workers s = (Return W, s') -> 1 <= W /\ s' = s.
Proof.
  rewrite resolve_workers_run. intros [= H <-]. split; [|done].
  destruct workers as [w|]; [|injection H; lia].
  destruct (Z.eqb_spec w (-1)); [injection H; unfold cpu_count; lia|].
  destruct (Z.leb_spec w 0); [done|]. injection H. lia.
Qed.

Lemma check_worker_id_run (worker_id : option Z) (W : Z) (overwrite : bool)
    (s : state) :
  check_worker_id worker_id W overwrite s =
  (match worker_id with
   | Some wid =>
       if negb ((0 <=? wid) && (wid <? W)) then Raise (InvalidWorkerId wid W)
       else if overwrite then Raise OverwriteWithWorkerId
       else Return tt
   | None => Return tt
   end, s).
Proof.
  unfold check_worker_id. destruct worker_id as [wid|]; [|done].
  destruct (negb _); [done|]. by destruct overwrite.
Qed.

Lemma in_range_spec (wid W : Z) :
  negb ((0 <=? wid) && (wid <? W)) = false <-> 0 <= wid < W.
Proof.
  rewrite negb_false_iff, andb_true_iff, Z.leb_le, Z.ltb_lt. tauto.
Qed.

Lemma prepare_output_run (output : path) (incremental overwrite : bool)
    (worker_id : option Z) (s : state) :
  prepare_output output incremental overwrite worker_id s =
  if exists_in s output && negb (incremental || is_not_none worker_id)
  then (if overwrite then rmtree output s else (Raise (OutputExists output), s))
  else (Return tt, s).
Proof.
  unfold prepare_output, exists_in. run_monad.
  destruct (files s !! output); simpl;
    destruct (incremental || is_not_none worker_id); simpl; try done.
  by destruct overwrite.
Qed.

(** [rmtree] on a directory: the directory and all below it are gone and
    the rest is as it was. *)
Lemma rmtree_spec (output : path) (s : state) :
  files s !! output = Some Dir ->
  exists s1,
    rmtree output s = (Return tt, s1)
    /\ trace s1 = trace s ++ [Rmtree output]
    /\ (forall q, output `prefix_of` q -> files s1 !! q = None)
    /\ (forall q, ~ output `prefix_of` q -> files s1 !! q = files s !! q).
Proof.
  intros Hdir. unfold rmtree. rewrite Hdir. eexists. split; [reflexivity|].
  simpl. split; [done|]. split.
  - intros q Hq. apply map_lookup_filter_None. right. intros n _ Hn.
    by apply Hn.
  - intros q Hq. destruct (files s !! q) as [n|] eqn:Hn.
    + apply map_lookup_filter_Some. by split.
    + apply map_lookup_filter_None. by left.
Qed.

(** The pool goes through every submitted id and never raises. *)
Lemma pool_run_fold (_worker : Z -> M RunCounts) (ids : list Z) :
  forall s : state,
    pool_run _worker ids s = (Return tt, fold_left (after_execution _worker) ids s).
Proof.
  induction ids as [|ii rest IH]; intros s; [done|].
  simpl. unfold bind at 1. unfold catch, after_execution.
  destruct (_worker ii s) as [[c|exc] s1]; unfold bind;
    [unfold ret|unfold emit]; apply IH.
Qed.

Lemma started_app (t1 t2 : list event) :
  started (t1 ++ t2) = started t1 ++ started t2.
Proof. unfold started. apply omap_app. Qed.

Lemma warned_app (t1 t2 : list event) :
  warned (t1 ++ t2) = warned t1 ++ warned t2.
Proof. unfold warned. apply omap_app. Qed.

(** The trace of one run of the worker: one start, no warning; and the
    exceptions a worker raises are not configuration errors. *)
Lemma worker_trace wid source output incremental W mf (s : state) o s' :
  _build_parquet_worker E wid source output incremental W mf s = (o, s') ->
  exists t,
    trace s' = trace s ++ t /\ started t = [(wid, W)] /\ warned t = []
    /\ forall e, o = Raise e -> class_of e <> ValueError.
Proof.
  intros Hrun.
  destruct (worker_spec E wid source output incremental W mf s)
    as (o1 & s1 & Hrun1 & Hpost).
  rewrite Hrun in Hrun1. injection Hrun1 as <- <-.
  assert (started (start_events wid W incremental output s) = [(wid, W)]
          /\ warned (start_events wid W incremental output s) = []) as [S0 W0].
  { unfold start_events. by destruct (consults_index incremental output s). }
  destruct o as [c|e].
  - destruct Hpost as (_ & _ & _ & _ & _ & _ & _ & Ht).
    eexists. split; [exact Ht|]. rewrite started_app, warned_app, S0, W0.
    repeat split; try done.
  - destruct Hpost as [(_ & -> & _ & Ht)
                      |[(_ & (q & f & _ & _ & He) & _ & Ht)
                       |(_ & (k & -> & _) & _ & _ & _ & Ht)]].
    + eexists. split; [exact Ht|]. repeat split; try done.
      by intros e' [= <-].
    + eexists. split; [exact Ht|]. repeat split; try done.
      intros e' [= <-]. by destruct He as [->| ->].
    + eexists. split; [exact Ht|]. rewrite started_app, warned_app, S0, W0.
      repeat split; try done. by intros e' [= <-].
Qed.

Lemma after_execution_trace source output incremental W mf (s : state) ii :
  let _worker := fun ii =>
    _build_parquet_worker E ii source output incremental W mf in
  exists t,
    trace (after_execution _worker s ii) = trace s ++ t
    /\ started t = [(ii, W)]
    /\ (warned t = [] \/ warned t = [ii]).
Proof.
  intros _worker. unfold after_execution.
  destruct (_worker ii s) as [[c|exc] s1] eqn:Hrun;
    destruct (worker_trace _ _ _ _ _ _ _ _ _ Hrun) as (t & Ht & Hs & Hw & _).
  - exists t. auto.
  - exists (t ++ [Warning ii exc]). simpl. rewrite Ht, <- app_assoc.
    split; [done|]. rewrite started_app, warned_app, Hs, Hw. auto.
Qed.

Lemma pool_trace source output incremental W mf (ids : list Z) :
  let _worker := fun ii =>
    _build_parquet_worker E ii source output incremental W mf in
  forall s : state,
  exists t,
    trace (fold_left (after_execution _worker) ids s) = trace s ++ t
    /\ started t = (fun ii => (ii, W)) <$> ids
    /\ sublist (warned t) ids.
Proof.
  intros _worker. induction ids as [|ii rest IH]; intros s.
  - exists []. simpl. by rewrite app_nil_r.
  - simpl.
    destruct (after_execution_trace source output incremental W mf s ii)
      as (t1 & Ht1 & Hs1 & Hw1).
    destruct (IH (after_execution _worker s ii)) as (t2 & Ht2 & Hs2 & Hw2).
    exists (t1 ++ t2). rewrite Ht2. fold _worker in Ht1. rewrite Ht1.
    rewrite <- app_assoc. split; [done|].
    rewrite started_app, warned_app, Hs1, Hs2. split; [done|].
    destruct Hw1 as [-> | ->]; simpl.
    + by apply sublist_cons.
    + by apply sublist_skip.
Qed.

Lemma dispatch_single source output incremental W mf wid (s : state) :
  dispatch E source output incremental W (Some wid) mf s =
  (let r := _build_parquet_worker E wid source output incremental W mf s in
   (discard_counts r.1, r.2)).
Proof.
  unfold dispatch, bind.
  by destruct (_build_parquet_worker E wid source output incremental W mf s)
    as [[c|e] s'].
Qed.

Lemma dispatch_serial source output incremental W mf (s : state) :
  W <= 1 ->
  dispatch E source output incremental W None mf s =
  (let r := _build_parquet_worker E 0 source output incremental W mf s in
   (discard_counts r.1, r.2)).
Proof.
  intros HW. unfold dispatch. destruct (Z.ltb_spec 1 W) as [?|_]; [lia|].
  unfold bind.
  by destruct (_build_parquet_worker E 0 source output incremental W mf s)
    as [[c|e] s'].
Qed.

Lemma dispatch_pool source output incremental W mf (s : state) :
  1 < W ->
  dispatch E source output incremental W None mf s =
  (Return tt,
   fold_left
     (after_execution
        (fun ii => _build_parquet_worker E ii source output incremental W mf))
     (schedule E (seqZ 0 W)) s).
Proof.
  intros HW. unfold dispatch. destruct (Z.ltb_spec 1 W) as [_|?]; [|lia].
  apply pool_run_fold.
Qed.

(** What [dispatch] raises is what a worker run inline has raised. *)
Lemma dispatch_raises source output incremental W worker_id mf (s : state) e s' :
  dispatch E source output incremental W worker_id mf s = (Raise e, s') ->
  class_of e <> ValueError.
Proof.
  destruct worker_id as [wid|].
  - rewrite dispatch_single.
    destruct (_build_parquet_worker E wid source output incremental W mf s)
      as [o s1] eqn:Hrun.
    destruct (worker_trace _ _ _ _ _ _ _ _ _ Hrun) as (t & _ & _ & _ & Hc).
    simpl. destruct o as [c|e0]; [done|]. intros [= <- <-]. by apply Hc.
  - destruct (Z.ltb_spec 1 W) as [HW|HW].
    + by rewrite dispatch_pool.
    + rewrite dispatch_serial by done.
      destruct (_build_parquet_worker E 0 source output incremental W mf s)
        as [o s1] eqn:Hrun.
      destruct (worker_trace _ _ _ _ _ _ _ _ _ Hrun) as (t & _ & _ & _ & Hc).
      simpl. destruct o as [c|e0]; [done|]. intros [= <- <-]. by apply Hc.
Qed.

(** Every worker [dispatch] starts is told the same number of workers. *)
Lemma dispatch_trace source output incremental W worker_id mf (s : state) o s' :
  dispatch E source output incremental W worker_id mf s = (o, s') ->
  exists t, trace s' = trace s ++ t
            /\ Forall (fun p => p.2 = W) (started t).
Proof.
  destruct worker_id as [wid|].
  - rewrite dispatch_single.
    destruct (_build_parquet_worker E wid source output incremental W mf s)
      as [o1 s1] eqn:Hrun.
    destruct (worker_trace _ _ _ _ _ _ _ _ _ Hrun) as (t & Ht & Hs & _).
    simpl. intros [= _ <-]. exists t. rewrite Hs. split; [done|].
    by repeat constructor.
  - destruct (Z.ltb_spec 1 W) as [HW|HW].
    + rewrite dispatch_pool by done. intros [= _ <-].
      destruct (pool_trace source output incremental W mf
                  (schedule E (seqZ 0 W)) s) as (t & Ht & Hs & _).
      exists t. split; [exact Ht|]. rewrite Hs. apply Forall_fmap.
      by apply Forall_true.
    + rewrite dispatch_serial by done.
      destruct (_build_parquet_worker E 0 source output incremental W mf s)
        as [o1 s1] eqn:Hrun.
      destruct (worker_trace _ _ _ _ _ _ _ _ _ Hrun) as (t & Ht & Hs & _).
      simpl. intros [= _ <-]. exists t. rewrite Hs. split; [done|].
      by repeat constructor.
Qed.

Lemma prepare_output_trace output incremental overwrite worker_id
    (s : state) o s1 :
  prepare_output output incremental overwrite worker_id s = (o, s1) ->
  exists t, trace s1 = trace s ++ t /\ started t = [].
Proof.
  rewrite prepare_output_run.
  destruct (exists_in s output && _);
    [|intros [= _ <-]; exists []; by rewrite app_nil_r].
  destruct overwrite; [|intros [= _ <-]; exists []; by rewrite app_nil_r].
  unfold rmtree. destruct (files s !! output) as [[|f]|];
    intros [= _ <-]; simpl; eauto; exists []; by rewrite app_nil_r.
Qed.

(** The steps of [build_parquet], one after the other. *)
Lemma build_parquet_run source output incremental overwrite workers worker_id mf
    (s : state) :
  build_parquet E source output incremental overwrite workers worker_id mf s =
  match resolve_workers E workers s with
  | (Return W, _) =>
      match check_worker_id worker_id W overwrite s with
      | (Return _, _) =>
          match prepare_output output incremental overwrite worker_id s with
          | (Return _, s1) =>
              dispatch E source output incremental W worker_id mf s1
          | (Raise e, s1) => (Raise e, s1)
          end
      | (Raise e, _) => (Raise e, s)
      end
  | (Raise e, _) => (Raise e, s)
  end.
Proof.
  unfold build_parquet, bind. rewrite resolve_workers_run.
  destruct (match workers with None => _ | Some _ => _ end) as [W|e]; [|done].
  rewrite check_worker_id_run.
  destruct (match worker_id with None => _ | Some _ => _ end) as [[]|e]; [|done].
  by destruct (prepare_output output incremental overwrite worker_id s)
    as [[[]|e] s1].
Qed.

End OrchestratorProps.

(** ** The claims about the orchestrator *)

Section OrchestratorClaims.

Context {record : Type}.
Variable E : Env record.

Local Abbreviation state := (@state record).

(** C4 (amended): once the configuration has been accepted, with
    [inplace = incremental or worker_id is not None]: an existing output
    directory that is not used in place is removed with all below it
    before the dispatch of any worker when [overwrite] is set, and makes
    the call raise the error of an existing output, before the dispatch,
    when it is not; an output used in place is left as it is; and a
    regular file at the output path, not used in place and with
    [overwrite] set, is not removed: the removal raises, nothing is
    deleted and no worker is dispatched. *)
Theorem output_disposition source output incremental overwrite workers
    worker_id mf (s : state) W :
  let inplace := incremental || is_not_none worker_id in
  let build :=
    build_parquet E source output incremental overwrite workers worker_id mf in
  resolve_workers E workers s = (Return W, s) ->
  check_worker_id worker_id W overwrite s = (Return tt, s) ->
  (inplace = false -> files s !! output = Some Dir -> overwrite = true ->
     exists s1,
       build s = dispatch E source output incremental W worker_id mf s1
       /\ new_events s s1 = [Rmtree output]
       /\ (forall q, output `prefix_of` q -> files s1 !! q = None)
       /\ (forall q, ~ output `prefix_of` q -> files s1 !! q = files s !! q))
  /\ (inplace = false -> is_Some (files s !! output) -> overwrite = false ->
        build s = (Raise (OutputExists output), s)
        /\ class_of (OutputExists output) = FileExistsError)
  /\ (inplace = true ->
        build s = dispatch E source output incremental W worker_id mf s)
  /\ (files s !! output = None ->
        build s = dispatch E source output incremental W worker_id mf s)
  /\ (forall f, inplace = false -> files s !! output = Some (File f) ->
        overwrite = true ->
        build s = (Raise (NotADirectory output), s)
        /\ class_of (NotADirectory output) = NotADirectoryError).
Proof.
  intros inplace build Hres Hchk. subst build.
  rewrite build_parquet_run, Hres, Hchk, prepare_output_run.
  fold inplace. unfold exists_in. split; [|split; [|split; [|split]]].
  - intros -> Hdir ->. rewrite Hdir. simpl.
    destruct (rmtree_spec output s Hdir) as (s1 & Hrun & Ht & Hgone & Hkept).
    exists s1. rewrite Hrun. split; [done|]. split; [|done].
    unfold new_events. rewrite Ht. apply drop_app_length.
  - intros -> [n Hn] ->. rewrite Hn. done.
  - intros ->. by rewrite andb_false_r.
  - intros ->. done.
  - intros f -> Hfile ->. rewrite Hfile. simpl. unfold rmtree.
    by rewrite Hfile.
Qed.

(** C5: [workers] absent or 1 gives one worker, run in the calling
    process; [-1] gives the host's parallelism; any other value that is not
    positive is refused; a [worker_id] outside [0 <= worker_id < workers]
    is refused, and so is a [worker_id] together with [overwrite]; every
    refusal is a [ValueError] raised with the state untouched: before any
    worker has started and before the output has been looked at. *)
Theorem configuration_checks source output incremental overwrite workers
    worker_id mf (s : state) :
  let build := build_parquet E source output incremental overwrite in
  (resolve_workers E None s = (Return 1, s)
   /\ resolve_workers E (Some 1) s = (Return 1, s)
   /\ forall s1 : state,
        dispatch E source output incremental 1 None mf s1 =
        (let r := _build_parquet_worker E 0 source output incremental 1 mf s1 in
         (discard_counts r.1, r.2)))
  /\ resolve_workers E (Some (-1)) s = (Return (cpu_count E), s)
  /\ (forall w, w <= 0 -> w <> -1 ->
        build (Some w) worker_id mf s = (Raise (InvalidWorkers w), s))
  /\ (forall W wid,
        resolve_workers E workers s = (Return W, s) -> ~ 0 <= wid < W ->
        build workers (Some wid) mf s = (Raise (InvalidWorkerId wid W), s))
  /\ (forall wid, overwrite = true ->
        exists e, build workers (Some wid) mf s = (Raise e, s)
                  /\ class_of e = ValueError)
  /\ (forall e s',
        build workers worker_id mf s = (Raise e, s') ->
        class_of e = ValueError -> s' = s).
Proof.
  intros build. subst build. split; [|split; [|split; [|split; [|split]]]].
  - split; [done|]. split; [done|]. intros s1. by apply dispatch_serial.
  - done.
  - intros w Hw Hne. rewrite build_parquet_run, resolve_workers_run.
    destruct (Z.eqb_spec w (-1)); [done|].
    by destruct (Z.leb_spec w 0); [|lia].
  - intros W wid Hres Hout. rewrite build_parquet_run, Hres, check_worker_id_run.
    destruct (negb _) eqn:Hr; [done|]. by apply in_range_spec in Hr.
  - intros wid ->. rewrite build_parquet_run, resolve_workers_run.
    destruct (match workers with None => _ | Some _ => _ end) as [W|e] eqn:Hres.
    + rewrite check_worker_id_run. destruct (negb _); eauto.
    + exists e. split; [done|].
      destruct workers as [w|]; [|done].
      destruct (w =? -1); [done|]. destruct (w <=? 0); [|done].
      by injection Hres as <-.
  - intros e s'. rewrite build_parquet_run, resolve_workers_run.
    destruct (match workers with None => _ | Some _ => _ end) as [W|e0] eqn:Hres;
      [|by intros [= <- <-]].
    rewrite check_worker_id_run.
    destruct (match worker_id with None => _ | Some _ => _ end) as [[]|e0] eqn:Hchk;
      [|by intros [= <- <-]].
    rewrite prepare_output_run.
    destruct (exists_in s output && _).
    + destruct overwrite; [|by intros [= <- <-]].
      unfold rmtree. destruct (files s !! output) as [[|f]|];
        [|by intros [= <- <-]..].
      intros Hd Hc. by apply dispatch_raises in Hd.
    + intros Hd Hc. by apply dispatch_raises in Hd.
Qed.

(** C6: with [worker_id] unset and more than one worker, the orchestrator
    runs one execution for each worker id of [0 .. workers-1], goes through
    all of them whatever each one raises, logs an exception under the id
    of the worker that raised it, and returns normally; with [worker_id]
    set, or with a single worker, the exception of the worker is the
    exception of the call. *)
Theorem pool_isolates_failures source output incremental W mf (s : state) :
  let _worker := fun ii =>
    _build_parquet_worker E ii source output incremental W mf in
  (1 < W ->
     exists s',
       dispatch E source output incremental W None mf s = (Return tt, s')
       /\ s' = fold_left (after_execution _worker) (schedule E (seqZ 0 W)) s
       /\ started (new_events s s')
            = (fun ii => (ii, W)) <$> schedule E (seqZ 0 W)
       /\ sublist (warned (new_events s s')) (schedule E (seqZ 0 W))
       /\ (schedule E (seqZ 0 W) ≡ₚ seqZ 0 W ->
             started (new_events s s') ≡ₚ (fun ii => (ii, W)) <$> seqZ 0 W))
  /\ (forall ii (s0 : state) exc s1,
        _worker ii s0 = (Raise exc, s1) ->
        after_execution _worker s0 ii
          = State (files s1) (trace s1 ++ [Warning ii exc]))
  /\ (forall ii (s0 : state) c s1,
        _worker ii s0 = (Return c, s1) -> after_execution _worker s0 ii = s1)
  /\ (forall overwrite workers (s0 : state),
        1 < W ->
        resolve_workers E workers s0 = (Return W, s0) ->
        prepare_output output incremental overwrite None s0 = (Return tt, s) ->
        build_parquet E source output incremental overwrite workers None mf s0
          = (Return tt,
             fold_left (after_execution _worker) (schedule E (seqZ 0 W)) s))
  /\ (forall wid e s',
        _worker wid s = (Raise e, s') ->
        dispatch E source output incremental W (Some wid) mf s = (Raise e, s'))
  /\ (W <= 1 -> forall e s',
        _worker 0 s = (Raise e, s') ->
        dispatch E source output incremental W None mf s = (Raise e, s')).
Proof.
  intros _worker. split; [|split; [|split; [|split; [|split]]]].
  - intros HW. eexists. split; [by apply dispatch_pool|].
    fold _worker. split; [done|].
    destruct (pool_trace E source output incremental W mf
                (schedule E (seqZ 0 W)) s) as (t & Ht & Hs & Hw).
    fold _worker in Ht. unfold new_events. rewrite Ht, drop_app_length.
    split; [done|]. split; [done|]. intros Hperm. by rewrite Hs, Hperm.
  - intros ii s0 exc s1 Hrun. unfold after_execution. by rewrite Hrun.
  - intros ii s0 c s1 Hrun. unfold after_execution. by rewrite Hrun.
  - intros overwrite workers s0 HW Hres Hprep.
    rewrite build_parquet_run, Hres, check_worker_id_run, Hprep.
    by apply dispatch_pool.
  - intros wid e s' Hrun. rewrite dispatch_single. fold (_worker wid).
    by rewrite Hrun.
  - intros HW e s' Hrun. rewrite dispatch_serial by done. fold (_worker 0).
    by rewrite Hrun.
Qed.

(** C8: [workers=-1] is resolved to the host's parallelism, an integer
    that is at least 1 and so never [-1]; the call then behaves as the call
    with that number given outright: the check of [worker_id] is against
    it, and every worker is started with it. *)
Theorem all_cores_resolution source output incremental overwrite worker_id mf
    (s : state) :
  let build := build_parquet E source output incremental overwrite in
  resolve_workers E (Some (-1)) s = (Return (cpu_count E), s)
  /\ 1 <= cpu_count E /\ cpu_count E <> -1
  /\ build (Some (-1)) worker_id mf s = build (Some (cpu_count E)) worker_id mf s
  /\ (forall wid, worker_id = Some wid -> ~ 0 <= wid < cpu_count E ->
        build (Some (-1)) worker_id mf s
          = (Raise (InvalidWorkerId wid (cpu_count E)), s))
  /\ (forall o s',
        build (Some (-1)) worker_id mf s = (o, s') ->
        forall ii w, (ii, w) ∈ started (new_events s s') -> w = cpu_count E).
Proof.
  intros build. subst build.
  assert (1 <= cpu_count E) as Hpos by (unfold cpu_count; lia).
  assert (resolve_workers E (Some (-1)) s = (Return (cpu_count E), s)) as R1
    by done.
  assert (resolve_workers E (Some (cpu_count E)) s = (Return (cpu_count E), s))
    as R2.
  { rewrite resolve_workers_run.
    destruct (Z.eqb_spec (cpu_count E) (-1)); [lia|].
    by destruct (Z.leb_spec (cpu_count E) 0); [lia|]. }
  split; [done|]. split; [done|]. split; [lia|]. split; [|split].
  - by rewrite !build_parquet_run, R1, R2.
  - intros wid -> Hout. rewrite build_parquet_run, R1, check_worker_id_run.
    destruct (negb _) eqn:Hr; [done|]. by apply in_range_spec in Hr.
  - intros o s'. rewrite build_parquet_run, R1, check_worker_id_run.
    destruct (match worker_id with None => _ | Some _ => _ end) as [[]|e0].
    + destruct (prepare_output output incremental overwrite worker_id s)
        as [[[]|e1] s1] eqn:Hprep;
        destruct (prepare_output_trace _ _ _ _ _ _ _ Hprep) as (t1 & Ht1 & Hs1).
      * intros Hd ii w Hin.
        destruct (dispatch_trace _ _ _ _ _ _ _ _ _ _ Hd) as (t2 & Ht2 & Hall).
        unfold new_events in Hin.
        rewrite Ht2, Ht1, <- app_assoc, drop_app_length in Hin.
        rewrite started_app, Hs1 in Hin. simpl in Hin.
        rewrite Forall_forall in Hall. by apply (Hall (ii, w)).
      * intros [= _ <-] ii w Hin. unfold new_events in Hin.
        rewrite Ht1, drop_app_length, Hs1 in Hin. by apply elem_of_nil in Hin.
    + intros [= _ <-] ii w Hin. unfold new_events in Hin.
      rewrite drop_all in Hin. by apply elem_of_nil in Hin.
Qed.

(** C10: with [workers] left out, a [worker_id] is checked against one
    worker: the call is the call with [workers=1]; [worker_id=0] passes
    the check of the range and, without [overwrite], runs worker 0 of 1 in
    the calling process, where the partition filter keeps everything; any
    other [worker_id] is refused as out of range; no check asks for
    [workers] to be given. *)
Theorem worker_id_without_workers source output incremental overwrite wid mf
    (s : state) :
  let build := build_parquet E source output incremental overwrite in
  build None (Some wid) mf s = build (Some 1) (Some wid) mf s
  /\ (wid <> 0 ->
        build None (Some wid) mf s = (Raise (InvalidWorkerId wid 1), s))
  /\ (overwrite = false ->
        build None (Some 0) mf s =
        (let r := _build_parquet_worker E 0 source output incremental 1 mf s in
         (discard_counts r.1, r.2)))
  /\ (overwrite = true ->
        build None (Some 0) mf s = (Raise OverwriteWithWorkerId, s))
  /\ (forall l, partition_filter E 0 1 l = l).
Proof.
  intros build. subst build. split; [|split; [|split; [|split]]].
  - by rewrite !build_parquet_run, !resolve_workers_run.
  - intros Hne. rewrite build_parquet_run, resolve_workers_run, check_worker_id_run.
    destruct (negb _) eqn:Hr; [done|]. apply in_range_spec in Hr. lia.
  - intros ->. rewrite build_parquet_run, resolve_workers_run, check_worker_id_run.
    simpl. rewrite prepare_output_run. simpl.
    rewrite orb_true_r, andb_false_r. apply dispatch_single.
  - intros ->. by rewrite build_parquet_run, resolve_workers_run, check_worker_id_run.
  - intros l. reflexivity.
Qed.

End OrchestratorClaims.

(** ** The properties at work on a small build *)

Lemma partition_complete_disjoint_witness :
  1 < 3
  /\ ⋃ ((fun w => partition_set Demo.env w 3 ["a"; "bb"; "ccc"; "dddd"])
          <$> seqZ 0 3)
     = list_to_set ["a"; "bb"; "ccc"; "dddd"].
Proof.
  split; [lia|].
  exact (proj1 (partition_complete_disjoint Demo.env 3 ["a"; "bb"; "ccc"; "dddd"]
                  ltac:(lia))).
Defined.

Lemma abort_leaves_no_partition_witness :
  let r := _build_parquet_worker Demo.env 0
             (Paths ["bad1"; "a"; "bad2"; "bad3"]) ["out"] false 1 (Some 2)
             Demo.s0 in
  let final := partition_path ["out"] (now Demo.env 0) 0 1 in
  mktemp Demo.env final <> final
  /\ r.1 = Raise (MaxFailuresExceeded 3)
  /\ files r.2 !! final = None.
Proof.
  intros r final.
  assert (mktemp Demo.env final <> final) as Htmp by (vm_compute; discriminate).
  assert (r.1 = Raise (MaxFailuresExceeded 3)) as Hr by (vm_compute; reflexivity).
  split; [exact Htmp|]. split; [exact Hr|].
  refine (proj1 (abort_leaves_no_partition Demo.env 0
                   (Paths ["bad1"; "a"; "bad2"; "bad3"]) ["out"] false 1 (Some 2)
                   Demo.s0 r.1 r.2 Htmp (surjective_pairing r))
                (MaxFailuresExceeded 3) Hr _).
  discriminate.
Defined.

Lemma partition_path_convention_witness :
  let r := _build_parquet_worker Demo.env 0 (Paths ["a"; "bb"]) ["out"] false 1
             (Some 0) Demo.s0 in
  let final := partition_path ["out"] (now Demo.env 0) 0 1 in
  datetime_valid (now Demo.env 0) /\ 0 <= 0 /\ 0 <= 1
  /\ final = ["out"; "part-20261104090500-0000-of-0001.parquet"]
  /\ parent final = ["out"].
Proof.
  intros r final.
  assert (datetime_valid (now Demo.env 0)) as Hvalid
    by (unfold datetime_valid; simpl; lia).
  split; [exact Hvalid|]. split; [lia|]. split; [lia|].
  split; [vm_compute; reflexivity|].
  exact (proj1 (proj2 (partition_path_convention Demo.env 0 (Paths ["a"; "bb"])
                         ["out"] false 1 (Some 0) Demo.s0 r.1 r.2 Hvalid
                         ltac:(lia) ltac:(lia) (surjective_pairing r)))).
Defined.

Lemma output_disposition_witness :
  resolve_workers Demo.env (Some 2) Demo.s_out = (Return 2, Demo.s_out)
  /\ check_worker_id None 2 false Demo.s_out = (Return tt, Demo.s_out)
  /\ build_parquet Demo.env (Paths ["a"; "bb"]) ["out"] false false (Some 2) None
       (Some 0) Demo.s_out
     = (Raise (OutputExists ["out"]), Demo.s_out).
Proof.
  assert (resolve_workers Demo.env (Some 2) Demo.s_out = (Return 2, Demo.s_out))
    as Hres by reflexivity.
  assert (check_worker_id None 2 false Demo.s_out = (Return tt, Demo.s_out))
    as Hchk by reflexivity.
  split; [exact Hres|]. split; [exact Hchk|].
  refine (proj1 (proj1 (proj2 (output_disposition Demo.env (Paths ["a"; "bb"])
                                 ["out"] false false (Some 2) None (Some 0)
                                 Demo.s_out 2 Hres Hchk))
                       _ _ _)); [reflexivity| |reflexivity].
  vm_compute. eauto.
Defined.

(** A regular file at the output path, with [overwrite] set and the output
    not used in place: the output exists, and the call neither removes it
    nor reports an existing output; the removal raises and the file is
    still there. *)
Lemma output_disposition_counterexample :
  let r := build_parquet Demo.env (Paths ["a"; "bb"]) ["out"] false true None None
             (Some 0) Demo.s_file in
  exists_in Demo.s_file ["out"] = true
  /\ r = (Raise (NotADirectory ["out"]), Demo.s_file)
  /\ files r.2 !! ["out"] = Some (File (File_ ["x"] true))
  /\ ~ (exists s1,
          r = dispatch Demo.env (Paths ["a"; "bb"]) ["out"] false 1 None (Some 0) s1
          /\ files s1 !! ["out"] = None).
Proof.
  assert (build_parquet Demo.env (Paths ["a"; "bb"]) ["out"] false true None None
            (Some 0) Demo.s_file
          = (Raise (NotADirectory ["out"]), Demo.s_file)) as Hr
    by (vm_compute; reflexivity).
  cbv zeta. rewrite Hr. split; [reflexivity|]. split; [reflexivity|].
  split; [vm_compute; reflexivity|].
  intros (s1 & Hrun & _). rewrite dispatch_serial in Hrun by lia.
  destruct (_build_parquet_worker Demo.env 0 (Paths ["a"; "bb"]) ["out"] false 1
              (Some 0) s1) as [o sw] eqn:Hw.
  simpl in Hrun. injection Hrun as _ Hs.
  destruct (worker_trace _ _ _ _ _ _ _ _ _ _ Hw) as (t & Ht & Hst & _).
  rewrite <- Hs in Ht. simpl in Ht. symmetry in Ht.
  apply app_eq_nil in Ht as [_ ->]. discriminate Hst.
Qed.

(** The rejections of the configuration, on the inputs of the spec's tests. *)
Example configuration_rejected :
  build_parquet Demo.env (Paths ["a"]) ["out"] false false (Some 2) (Some 3) (Some 0)
    Demo.s0 = (Raise (InvalidWorkerId 3 2), Demo.s0)
  /\ build_parquet Demo.env (Paths ["a"]) ["out"] false true None (Some 0) (Some 0)
       Demo.s0 = (Raise OverwriteWithWorkerId, Demo.s0)
  /\ build_parquet Demo.env (Paths ["a"]) ["out"] false false (Some 0) None (Some 0)
       Demo.s0 = (Raise (InvalidWorkers 0), Demo.s0).
Proof. repeat split. Qed.

(** Three workers, the second of which meets a failing input with no
    failure allowed: the call returns, the two other partitions are there,
    and the failure is logged under the id of the second worker. *)
Example pool_with_a_failing_worker :
  let r := build_parquet Demo.env (Paths ["a"; "bad1"; "ccc"; "bad2"; "eeeee"])
             ["out"] false false (Some 3) None (Some 0) Demo.s0 in
  r.1 = Return tt
  /\ started (trace r.2) = [(2, 3); (1, 3); (0, 3)]
  /\ warned (trace r.2) = [1]
  /\ files r.2 !! ["out"; "part-20261104090500-0000-of-0003.parquet"]
     = Some (File (File_ ["ccc"] true))
  /\ files r.2 !! ["out"; "part-20261104090500-0001-of-0003.parquet"] = None
  /\ files r.2 !! ["out"; "part-20261104090500-0002-of-0003.parquet"]
     = Some (File (File_ ["eeeee"] true)).
Proof. vm_compute. repeat split. Qed.

(** The same failure in a worker scheduled from outside surfaces in the
    caller. *)
Example external_worker_failure :
  (build_parquet Demo.env (Paths ["a"; "bad1"; "ccc"; "bad2"; "eeeee"])
     ["out"] false false (Some 3) (Some 1) (Some 0) Demo.s0).1
  = Raise (MaxFailuresExceeded 1).
Proof. vm_compute. reflexivity. Qed.

(** [workers=-1] on a host of four processors. *)
Example all_cores_on_four :
  started (trace (build_parquet Demo.env (Paths ["a"; "bb"]) ["out"] false false
                    (Some (-1)) None (Some 0) Demo.s0).2)
  = [(3, 4); (2, 4); (1, 4); (0, 4)].
Proof. vm_compute. reflexivity. Qed.

(** An incremental run over an existing output: the index is loaded, the
    input recorded with a later time is skipped, and the earlier partition
    stays. *)
Example incremental_over_existing_output :
  let r := _build_parquet_worker Demo.env 0 (Paths ["a"; "bb"; "ccc"]) ["out"] true 1
             (Some 0) Demo.s_out in
  r.1 = Return (Counts 2 2 0)
  /\ trace r.2
     = [WorkerStart 0 1; IndexLoad ["out"]; Mkdir ["out"];
        AtomicOpen ["out"; "part-20261104090500-0000-of-0001.parquet"]
                   ["out"; ".tmp"];
        Publish ["out"; "part-20261104090500-0000-of-0001.parquet"]]
  /\ files r.2 !! ["out"; "part-20261104090500-0000-of-0001.parquet"]
     = Some (File (File_ ["a"; "ccc"] true))
  /\ files r.2 !! ["out"; "old.parquet"] = Some (File (File_ ["x"] true)).
Proof. vm_compute. repeat split. Qed.

(** A second run within the same second: the partition path is taken, the
    worker raises and the partition of the first run is untouched. *)
Example second_run_same_second :
  let first := _build_parquet_worker Demo.env 0 (Paths ["a"]) ["out"] false 1
                 (Some 0) Demo.s0 in
  let second := _build_parquet_worker Demo.env 0 (Paths ["bb"]) ["out"] false 1
                  (Some 0) first.2 in
  second.1
  = Raise (PartitionExists ["out"; "part-20261104090500-0000-of-0001.parquet"])
  /\ files second.2 = files first.2.
Proof. vm_compute. repeat split. Qed.

(** * Further properties of the builders *)

(** ** The names of the partitions *)

Lemma string_app_inj_length (a a' b b' : string) :
String.length a = String.length a' ->
a +:+ b = a' +:+ b' -> a = a' /\ b = b'.
Proof.
revert a'. induction a as [|c a IH]; intros [|c' a'] Hlen; try done.
rewrite !string_app_cons. simpl in Hlen. intros [= -> H].
destruct (IH a' ltac:(lia) H) as [-> ->]. done.
Qed.

(** Two runs of digits, each followed by a character that is no digit, are
    the same run when the strings are the same. *)
Lemma digits_prefix_unique (a a' : string) (c c' : ascii) (r r' : string) :
all_digits a = true -> all_digits a' = true ->
is_digit c = false -> is_digit c' = false ->
a +:+ String c r = a' +:+ String c' r' ->
a = a' /\ String c r = String c' r'.
Proof.
revert a'. induction a as [|x a IH]; intros [|x' a'] Ha Ha' Hc Hc'.
- done.
- rewrite string_app_cons. intros [= -> _]. unfold all_digits in Ha'.
  simpl in Ha'. apply andb_true_iff in Ha' as [Hx _]. congruence.
- rewrite string_app_cons. intros [= -> _]. unfold all_digits in Ha.
  simpl in Ha. apply andb_true_iff in Ha as [Hx _]. congruence.
- rewrite !string_app_cons. intros [= -> H].
  unfold all_digits in Ha, Ha'. simpl in Ha, Ha'.
  apply andb_true_iff in Ha as [_ Ha]. apply andb_true_iff in Ha' as [_ Ha'].
  destruct (IH a' Ha Ha' Hc Hc' H) as [-> ?]. done.
Qed.

Lemma fixed_width_inj (width : nat) (n n' : Z) (s : string) :
fixed_width width n s = true -> fixed_width width n' s = true -> n = n'.
Proof.
unfold fixed_width. rewrite !andb_true_iff, !Z.eqb_eq. intros [_ <-] [_ <-]. done.
Qed.

(** [strftime("%Y%m%d%H%M%S")] tells valid datetimes apart. *)
Lemma strftime_inj (t t' : datetime) :
datetime_valid t -> datetime_valid t' ->
strftime_YmdHMS t = strftime_YmdHMS t' -> t = t'.
Proof.
intros Hv Hv' Heq.
destruct (strftime_fields t Hv)
  as (Y & m & d & H & M & S & Hts & F1 & F2 & F3 & F4 & F5 & F6 & _).
destruct (strftime_fields t' Hv')
  as (Y' & m' & d' & H' & M' & S' & Hts' & G1 & G2 & G3 & G4 & G5 & G6 & _).
rewrite Hts, Hts' in Heq.
pose proof (fixed_width_length _ _ _ F1). pose proof (fixed_width_length _ _ _ G1).
apply string_app_inj_length in Heq as [-> Heq]; [|congruence].
pose proof (fixed_width_length _ _ _ F2). pose proof (fixed_width_length _ _ _ G2).
apply string_app_inj_length in Heq as [-> Heq]; [|congruence].
pose proof (fixed_width_length _ _ _ F3). pose proof (fixed_width_length _ _ _ G3).
apply string_app_inj_length in Heq as [-> Heq]; [|congruence].
pose proof (fixed_width_length _ _ _ F4). pose proof (fixed_width_length _ _ _ G4).
apply string_app_inj_length in Heq as [-> Heq]; [|congruence].
pose proof (fixed_width_length _ _ _ F5). pose proof (fixed_width_length _ _ _ G5).
apply string_app_inj_length in Heq as [-> ->]; [|congruence].
destruct t, t'. simpl in *. f_equal; eapply fixed_width_inj; eauto.
Qed.

Lemma format_04d_inj (n n' : Z) :
0 <= n -> 0 <= n' -> format_04d n = format_04d n' -> n = n'.
Proof.
intros Hn Hn' Heq.
destruct (format_0d_padded 4 n ltac:(lia) Hn) as (_ & <- & _).
destruct (format_0d_padded 4 n' ltac:(lia) Hn') as (_ & <- & _).
unfold format_04d in Heq. by rewrite Heq.
Qed.

(** The name of a partition tells the start time, the worker and the number
    of workers apart. *)
Lemma partition_name_inj (t t' : datetime) (wid wid' W W' : Z) :
datetime_valid t -> datetime_valid t' ->
0 <= wid -> 0 <= wid' -> 0 <= W -> 0 <= W' ->
partition_name t wid W = partition_name t' wid' W' ->
t = t' /\ wid = wid' /\ W = W'.
Proof.
intros Hv Hv' Hwid Hwid' HW HW'. unfold partition_name. intros Heq.
apply (inj (String.append "part-")) in Heq.
destruct (strftime_fields t Hv) as (_ & _ & _ & _ & _ & _ & _ & _ & _ & _ & _ & _ & _ & L).
destruct (strftime_fields t' Hv')
  as (_ & _ & _ & _ & _ & _ & _ & _ & _ & _ & _ & _ & _ & L').
apply string_app_inj_length in Heq as [Hts Heq]; [|congruence].
apply strftime_inj in Hts; [|done..]. split; [done|].
apply (inj (String.append "-")) in Heq.
destruct (format_0d_padded 4 wid ltac:(lia) Hwid) as (A1 & _).
destruct (format_0d_padded 4 wid' ltac:(lia) Hwid') as (A2 & _).
destruct (format_0d_padded 4 W ltac:(lia) HW) as (B1 & _).
destruct (format_0d_padded 4 W' ltac:(lia) HW') as (B2 & _).
apply digits_prefix_unique in Heq as [Ha Heq]; [|done..].
apply format_04d_inj in Ha; [|done..]. split; [done|].
apply (inj (String.append "-of-")) in Heq.
apply digits_prefix_unique in Heq as [Hb _]; [|done..].
by apply format_04d_inj in Hb.
Qed.

(** X1: the path of a partition tells the output directory, the start time
    to the second, the worker and the number of workers apart: partitions
    that differ in one of them have different paths, so two workers of one
    build never write to the same path, and neither do two builds of one
    output started in different seconds or with different numbers of
    workers. *)
Theorem partition_paths_distinct (output output' : path) (t t' : datetime)
  (wid wid' W W' : Z) :
datetime_valid t -> datetime_valid t' ->
0 <= wid -> 0 <= wid' -> 0 <= W -> 0 <= W' ->
(output, t, wid, W) <> (output', t', wid', W') ->
partition_path output t wid W <> partition_path output' t' wid' W'.
Proof.
intros Hv Hv' Hwid Hwid' HW HW' Hne. unfold partition_path, joinpath.
intros [Hout Hname]%app_inj_tail. apply Hne.
destruct (partition_name_inj _ _ _ _ _ _ Hv Hv' Hwid Hwid' HW HW' Hname)
  as (-> & -> & ->).
by rewrite Hout.
Qed.

(** ** What a run leaves of the files it found *)

Section Effects.

Context {record : Type}.
Variable E : Env record.

Local Abbreviation state := (@state record).
Local Abbreviation node := (@node record).
Local Abbreviation file := (@file record).

Lemma mkdir1_no_new_file (p : path) (last : bool) (fs fs' : gmap path node) :
mkdir1 p last fs = Return fs' ->
forall q (f : file), fs' !! q = Some (File f) -> fs !! q = Some (File f).
Proof.
unfold mkdir1. destruct (fs !! p) as [[|f0]|] eqn:Hp; intros [= <-] q f; [done|].
destruct (decide (q = p)) as [->|Hne].
- by rewrite lookup_insert_eq.
- by rewrite lookup_insert_ne.
Qed.

(** [mkdir -p] makes directories only. *)
Lemma mkdirs_no_new_file (rest : path) :
forall (pre : path) (fs fs' : gmap path node),
  mkdirs pre rest fs = Return fs' ->
  forall q (f : file), fs' !! q = Some (File f) -> fs !! q = Some (File f).
Proof.
induction rest as [|c rest IH]; intros pre fs fs'; simpl.
- apply mkdir1_no_new_file.
- destruct (mkdir1 pre false fs) as [fs1|e] eqn:H1; [|done].
  intros Hrun q f Hq. eapply mkdir1_no_new_file; [exact H1|].
  eapply IH; eauto.
Qed.

(** The worker, phase by phase. *)
Lemma worker_unfold wid source output incremental W mf (s : state) :
let final := partition_path output (now E wid) wid W in
let src := owned_source E wid source output incremental W s in
let s1 := State (files s)
                (trace s ++ start_events wid W incremental output s) in
_build_parquet_worker E wid source output incremental W mf s =
match files s !! final with
| Some _ => (Raise (PartitionExists final), s1)
| None =>
    match mkdir_parents output s1 with
    | (Return _, s2) => write_partition E final src mf s2
    | (Raise e, s2) => (Raise e, s2)
    end
end.
Proof.
intros final src s1.
unfold _build_parquet_worker. unfold bind at 1. unfold emit at 1.
unfold bind at 1. rewrite filtered_source_spec.
set (sa := State (files s) (trace s ++ [WorkerStart wid W])).
change (consults_index incremental output sa)
  with (consults_index incremental output s).
change (owned_source E wid source output incremental W sa) with src.
assert (State (files sa)
          (trace sa ++ (if consults_index incremental output s
                        then [IndexLoad output] else [])) = s1) as ->.
{ subst s1 sa. unfold start_events. simpl. by rewrite <- app_assoc. }
fold final. unfold bind at 1. unfold path_exists at 1.
change (files s1) with (files s).
destruct (files s !! final) as [n|]; [done|].
unfold bind at 1. subst final. unfold partition_path at 1.
rewrite parent_joinpath. fold (partition_path output (now E wid) wid W).
by destruct (mkdir_parents output s1) as [[[]|e] s2].
Qed.

(** A worker that finds its path free and no regular file in the way of
    its directory: what it returns and what it leaves. *)
Lemma worker_effect wid source output incremental W mf (s : state) :
let final := partition_path output (now E wid) wid W in
let tmp := mktemp E final in
let src := owned_source E wid source output incremental W s in
files s !! final = None ->
(forall q (f : file), q `prefix_of` output -> files s !! q <> Some (File f)) ->
tmp <> final -> ~ tmp `prefix_of` output ->
exists o s',
  _build_parquet_worker E wid source output incremental W mf s = (o, s')
  /\ files s' !! output = Some Dir
  /\ (forall q, q <> tmp -> q <> final -> ~ q `prefix_of` output ->
        files s' !! q = files s !! q)
  /\ (forall q (f : file), q `prefix_of` output -> files s' !! q <> Some (File f))
  /\ ((failures E src = 0 \/ budget_exceeded mf (failures E src) = false) ->
        o = Return (tally E src)
        /\ files s' !! final = Some (File (File_ (extracted E src) true)))
  /\ (0 < failures E src -> budget_exceeded mf (failures E src) = true ->
        (exists k, o = Raise (MaxFailuresExceeded k))
        /\ files s' !! final = None).
Proof.
intros final tmp src Hfree Hclear Htmp Hpre.
pose proof (worker_unfold wid source output incremental W mf s) as Hrun.
simpl in Hrun. fold final src in Hrun. rewrite Hfree in Hrun.
set (s1 := State (files s) _) in Hrun.
pose proof (mkdir_parents_spec output s1) as Hmk.
assert (forall s2, mkdir_parents output s1 = (Return tt, s2) ->
          forall q (f : file), files s2 !! q = Some (File f) ->
                               files s !! q = Some (File f)) as Hnf.
{ intros s2. unfold mkdir_parents.
  destruct (mkdirs [] output (files s1)) as [fs'|e] eqn:Hm; [|done].
  intros [= <-] q f. simpl. by apply (mkdirs_no_new_file output [] (files s1) fs'). }
destruct (mkdir_parents output s1) as [[[]|e] s2].
- destruct Hmk as (Hdir & Hframe & Hkeep & _).
  specialize (Hnf s2 eq_refl).
  destruct (write_partition_spec E final src mf s2)
    as (o & s' & Hw & Hfr & Hpost).
  fold tmp in Hfr, Hpost. exists o, s'. rewrite Hrun. split; [exact Hw|].
  assert (~ final `prefix_of` output) as Hnp by apply joinpath_not_prefix.
  assert (output <> final) as Hof.
  { intros Heq. apply Hnp. by rewrite <- Heq. }
  assert (output <> tmp) as Hot.
  { intros Heq. apply Hpre. by rewrite <- Heq. }
  split; [by rewrite Hfr|]. split; [|split].
  + intros q Hq1 Hq2 Hq3. by rewrite Hfr, Hframe.
  + intros q f Hq Hf. assert (q <> tmp) by (intros ->; done).
    assert (q <> final) by (intros ->; done).
    rewrite Hfr in Hf by done. by apply (Hclear q f), Hnf.
  + destruct o as [c|e].
    * destruct Hpost as (-> & Hb & Hfile & _). split; [done|].
      intros Hpos Hex. exfalso. destruct Hb as [Hb|Hb]; [lia|congruence].
    * destruct Hpost as ((k & -> & Hk & Hr) & Hfin & _). split.
      -- intros [H0|Hb]; [lia|]. exfalso.
         assert (budget_exceeded mf (failures E src) = true)
           by (eapply budget_exceeded_mono; [|exact Hk]; lia).
         congruence.
      -- intros _ _. split; [eauto|]. rewrite Hfin, Hframe by done. done.
- exfalso. destruct Hmk as (_ & q & f & Hq & Hf & _). by apply (Hclear q f).
Qed.

(** A run of the worker removes and replaces nothing that was there. *)
Lemma worker_keeps wid source output incremental W mf (s : state) o s'
  (q : path) (n : node) :
_build_parquet_worker E wid source output incremental W mf s = (o, s') ->
q <> mktemp E (partition_path output (now E wid) wid W) ->
files s !! q = Some n ->
files s' !! q = Some n.
Proof.
intros Hrun Hq Hn.
destruct (worker_spec E wid source output incremental W mf s)
  as (o1 & s1 & Hrun1 & Hpost).
rewrite Hrun in Hrun1. injection Hrun1 as <- <-.
set (final := partition_path output (now E wid) wid W) in *.
destruct o as [c|e].
- destruct Hpost as (Hfree & _ & _ & _ & _ & Hkeep & _).
  apply Hkeep; [done| |done]. intros ->. unfold path in *. congruence.
- destruct Hpost as [(_ & _ & Hfiles & _)
                    |[(_ & _ & Hfiles & _)
                     |(Hfree & _ & _ & _ & Hkeep & _)]].
  + by rewrite Hfiles.
  + by rewrite Hfiles.
  + apply Hkeep; [done| |done]. intros ->. unfold path in *. congruence.
Qed.

Lemma after_execution_keeps source output incremental W mf (s : state) ii
  (q : path) (n : node) :
let _worker := fun ii =>
  _build_parquet_worker E ii source output incremental W mf in
q <> mktemp E (partition_path output (now E ii) ii W) ->
files s !! q = Some n ->
files (after_execution _worker s ii) !! q = Some n.
Proof.
intros _worker Hq Hn. unfold after_execution.
destruct (_worker ii s) as [[c|exc] s1] eqn:Hrun;
  by apply (worker_keeps _ _ _ _ _ _ _ _ _ _ _ Hrun).
Qed.

Lemma dispatch_keeps source output incremental W worker_id mf (s : state) o s'
  (q : path) (n : node) :
dispatch E source output incremental W worker_id mf s = (o, s') ->
(forall ii, q <> mktemp E (partition_path output (now E ii) ii W)) ->
files s !! q = Some n ->
files s' !! q = Some n.
Proof.
intros Hrun Hq Hn. destruct worker_id as [wid|].
- rewrite dispatch_single in Hrun.
  destruct (_build_parquet_worker E wid source output incremental W mf s)
    as [o1 s1] eqn:Hw.
  simpl in Hrun. injection Hrun as _ <-.
  by apply (worker_keeps _ _ _ _ _ _ _ _ _ _ _ Hw).
- destruct (Z.ltb_spec 1 W) as [HW|HW].
  + rewrite dispatch_pool in Hrun by done. injection Hrun as _ <-.
    generalize (schedule E (seqZ 0 W)). intros ids. revert s Hn.
    induction ids as [|ii rest IH]; intros s Hn; [done|].
    simpl. apply IH. by apply after_execution_keeps.
  + rewrite dispatch_serial in Hrun by done.
    destruct (_build_parquet_worker E 0 source output incremental W mf s)
      as [o1 s1] eqn:Hw.
    simpl in Hrun. injection Hrun as _ <-.
    by apply (worker_keeps _ _ _ _ _ _ _ _ _ _ _ Hw).
Qed.

Lemma resolve_workers_effective (workers : option Z) (s : state) W s' :
resolve_workers E workers s = (Return W, s') -> W = effective_workers E workers.
Proof.
rewrite resolve_workers_run. unfold effective_workers.
destruct workers as [w|]; [|by intros [= <- _]].
destruct (w =? -1); [by intros [= <- _]|].
by destruct (w <=? 0); intros [= <- _].
Qed.

(** What [build_parquet] raises once the configuration is accepted is no
    [ValueError]. *)
Lemma after_checks_no_ValueError source output incremental overwrite W worker_id
  mf (s : state) e s' :
match prepare_output output incremental overwrite worker_id s with
| (Return _, s1) => dispatch E source output incremental W worker_id mf s1
| (Raise e1, s1) => (Raise e1, s1)
end = (Raise e, s') ->
class_of e <> ValueError.
Proof.
rewrite prepare_output_run.
destruct (exists_in s output && _).
- destruct overwrite; [|by intros [= <- _]].
  unfold rmtree. destruct (files s !! output) as [[|f]|];
    [|by intros [= <- _]..].
  apply dispatch_raises.
- apply dispatch_raises.
Qed.

(** X2: a build that is not told to overwrite, or that works in place,
    removes and replaces nothing that was there: every file and directory
    found at the start, other than at a staging path, is there unchanged at
    the end, whatever the outcome; a build that overwrites leaves alone all
    that is outside the output directory. *)
Theorem build_keeps_existing source output incremental overwrite workers
  worker_id mf (s : state) o s' (q : path) (n : node) :
build_parquet E source output incremental overwrite workers worker_id mf s
  = (o, s') ->
files s !! q = Some n ->
(forall ii, q <> mktemp E (partition_path output (now E ii) ii
                             (effective_workers E workers))) ->
(incremental = true \/ worker_id <> None \/ overwrite = false
 \/ ~ output `prefix_of` q) ->
files s' !! q = Some n.
Proof.
intros Hrun Hn Hq Hcond. rewrite build_parquet_run in Hrun.
destruct (resolve_workers E workers s) as [[W|e] sr] eqn:Hres;
  [|by injection Hrun as _ <-].
apply resolve_workers_effective in Hres as ->.
rewrite check_worker_id_run in Hrun.
destruct (match worker_id with None => _ | Some _ => _ end) as [[]|e];
  [|by injection Hrun as _ <-].
rewrite prepare_output_run in Hrun.
assert (forall s1, dispatch E source output incremental
                     (effective_workers E workers) worker_id mf s1 = (o, s') ->
                   files s1 !! q = Some n -> files s' !! q = Some n) as Hd.
{ intros s1 Hd Hn1. by apply (dispatch_keeps _ _ _ _ _ _ _ _ _ _ _ Hd). }
destruct (exists_in s output && negb (incremental || is_not_none worker_id))
  eqn:Hc; [|by apply (Hd s)].
apply andb_true_iff in Hc as [Hex Hinp]. apply negb_true_iff in Hinp.
apply orb_false_iff in Hinp as [-> Hwid].
destruct worker_id as [wid|]; [done|].
destruct overwrite; [|by injection Hrun as _ <-].
destruct Hcond as [?|[?|[?|Hout]]]; try done.
unfold rmtree in Hrun.
destruct (files s !! output) as [[|f]|] eqn:Ho;
  [|by injection Hrun as _ <-..].
apply (Hd _ Hrun). simpl. apply map_lookup_filter_Some. by split.
Qed.

(** X3: a run of the worker that meets more extraction failures than it
    may leaves the output directory behind, made before the write began;
    a later build of the same output that neither overwrites nor works in
    place is refused over it. *)
Theorem aborted_run_blocks_rerun wid source output incremental W mf (s : state)
  k s' :
mktemp E (partition_path output (now E wid) wid W) <> output ->
_build_parquet_worker E wid source output incremental W mf s
  = (Raise (MaxFailuresExceeded k), s') ->
files s' !! output = Some Dir
/\ forall source' workers mf' W',
     resolve_workers E workers s' = (Return W', s') ->
     build_parquet E source' output false false workers None mf' s'
       = (Raise (OutputExists output), s').
Proof.
intros Htmp Hrun.
pose proof (worker_unfold wid source output incremental W mf s) as Hun.
simpl in Hun. rewrite Hrun in Hun.
set (final := partition_path output (now E wid) wid W) in *.
assert (files s' !! output = Some Dir) as Hdir.
{ destruct (files s !! final); [done|].
  set (s1 := State (files s) _) in Hun.
  pose proof (mkdir_parents_spec output s1) as Hmk.
  destruct (mkdir_parents output s1) as [[[]|e] s2].
  - destruct Hmk as (Hd & _).
    destruct (write_partition_spec E final
                (owned_source E wid source output incremental W s) mf s2)
      as (o & s'' & Hw & Hfr & _).
    rewrite Hw in Hun. injection Hun as <- <-. rewrite Hfr; [done|done|].
    intros Heq. apply (joinpath_ne output (partition_name (now E wid) wid W)).
    by symmetry.
  - destruct Hmk as (_ & q & f & _ & _ & He). injection Hun as <- _.
    by destruct He. }
split; [done|]. intros source' workers mf' W' Hres.
rewrite build_parquet_run, Hres, check_worker_id_run, prepare_output_run.
unfold exists_in. by rewrite Hdir.
Qed.

(** X4: a call is refused as misconfigured, by a [ValueError] raised
    before the output is looked at and before any worker starts, exactly
    when [workers] is neither [-1] nor positive, or [worker_id] is given
    and is out of range or comes with [overwrite]; nothing else refuses a
    call in this way: not a [max_failures] of any value, not more workers
    than the host has processors, not [overwrite] together with
    [incremental]. *)
Theorem configuration_refused_iff source output incremental overwrite workers
  worker_id mf (s : state) :
(exists e,
    build_parquet E source output incremental overwrite workers worker_id mf s
      = (Raise e, s)
    /\ class_of e = ValueError)
<-> ((exists w, workers = Some w /\ w <= 0 /\ w <> -1)
     \/ (exists wid, worker_id = Some wid
           /\ (~ 0 <= wid < effective_workers E workers \/ overwrite = true))).
Proof.
rewrite build_parquet_run. split.
- intros (e & Hrun & Hc).
  destruct (resolve_workers E workers s) as [[W|e0] sr] eqn:Hres.
  + pose proof (resolve_workers_effective _ _ _ _ Hres) as ->.
    right. rewrite check_worker_id_run in Hrun.
    destruct worker_id as [wid|].
    * exists wid. split; [done|].
      destruct (negb _) eqn:Hr.
      -- left. intros Hin. apply in_range_spec in Hin. congruence.
      -- destruct overwrite; [by right|]. exfalso.
         by apply after_checks_no_ValueError in Hrun.
    * exfalso. by apply after_checks_no_ValueError in Hrun.
  + left. rewrite resolve_workers_run in Hres.
    destruct workers as [w|]; [|done]. exists w. split; [done|].
    destruct (Z.eqb_spec w (-1)); [done|].
    destruct (Z.leb_spec w 0); [done|done].
- intros [(w & -> & Hle & Hne)|(wid & -> & Hbad)].
  + rewrite resolve_workers_run.
    destruct (Z.eqb_spec w (-1)); [done|].
    destruct (Z.leb_spec w 0); [|lia]. eauto.
  + destruct (resolve_workers E workers s) as [[W|e0] sr] eqn:Hres.
    * pose proof (resolve_workers_effective _ _ _ _ Hres) as ->.
      rewrite check_worker_id_run.
      destruct (negb _) eqn:Hr; [eauto|].
      apply in_range_spec in Hr. destruct Hbad as [?| ->]; [done|eauto].
    * exists e0. split; [done|].
      rewrite resolve_workers_run in Hres.
      destruct workers as [w|]; [|done].
      destruct (w =? -1); [done|]. destruct (w <=? 0); [|done].
      by injection Hres as <- _.
Qed.

End Effects.

(** ** The partitions as a split of the source *)

Lemma concat_place_once {A : Type} (f : Z -> list A) (x : A) (k : Z) (ws : list Z) :
NoDup ws ->
concat ((fun w => if decide (w = k) then x :: f w else f w) <$> ws)
≡ₚ (if decide (k ∈ ws) then [x] else []) ++ concat (f <$> ws).
Proof.
induction ws as [|w ws IH]; intros Hnd.
- simpl. destruct (decide (k ∈ [])) as [H|_]; [by apply elem_of_nil in H|done].
- apply NoDup_cons in Hnd as [Hw Hnd]. rewrite !fmap_cons. simpl concat.
  rewrite (IH Hnd). destruct (decide (w = k)) as [->|Hne].
  + rewrite (decide_True (P := k ∈ k :: ws)) by left.
    by rewrite (decide_False (P := k ∈ ws)).
  + destruct (decide (k ∈ ws)) as [Hin|Hnin].
    * rewrite (decide_True (P := k ∈ w :: ws)) by (by right).
      simpl. symmetry. apply Permutation_middle.
    * rewrite (decide_False (P := k ∈ w :: ws)); [done|].
      intros [->|?]%elem_of_cons; done.
Qed.

Lemma concat_all_nil {A B : Type} (ws : list B) :
concat ((fun _ => @nil A) <$> ws) = [].
Proof. induction ws as [|w ws IH]; [done|]. by rewrite fmap_cons. Qed.

Section Split.

Context {record : Type}.
Variable E : Env record.

Lemma partition_filter_cons (w W : Z) (x : ident) (S : list ident) :
1 < W ->
partition_filter E w W (x :: S)
= if decide (w = hash E x `mod` W)
  then x :: partition_filter E w W S else partition_filter E w W S.
Proof.
intros HW. unfold partition_filter.
destruct (Z.ltb_spec 1 W) as [_|?]; [|lia].
simpl. unfold hash_partitioner at 1.
destruct (Z.eqb_spec (hash E x `mod` W) w) as [<-|Hne].
- by rewrite decide_True.
- by rewrite decide_False.
Qed.

(** Every occurrence of an input goes to one partition. *)
Lemma partition_filter_split (W : Z) (S : list ident) :
1 < W ->
concat ((fun w => partition_filter E w W S) <$> seqZ 0 W) ≡ₚ S.
Proof.
intros HW. induction S as [|x S IH].
- assert (forall w, partition_filter E w W [] = []) as Hnil.
  { intros w. unfold partition_filter. by destruct (1 <? W). }
  rewrite (list_fmap_ext _ (fun _ => []) (seqZ 0 W) (fun _ w _ => Hnil w)).
  by rewrite concat_all_nil.
- rewrite (list_fmap_ext _
             (fun w => if decide (w = hash E x `mod` W)
                       then x :: partition_filter E w W S
                       else partition_filter E w W S)
             (seqZ 0 W) (fun _ w _ => partition_filter_cons w W x S HW)).
  rewrite (concat_place_once (fun w => partition_filter E w W S))
    by apply NoDup_seqZ.
  rewrite decide_True.
  + simpl. by rewrite IH.
  + apply elem_of_seqZ. pose proof (Z.mod_pos_bound (hash E x) W). lia.
Qed.

Lemma extracted_app (l1 l2 : list ident) :
extracted E (l1 ++ l2) = extracted E l1 ++ extracted E l2.
Proof. unfold extracted. by rewrite omap_app, concat_app. Qed.

Lemma extracted_concat (ls : list (list ident)) :
extracted E (concat ls) = concat (extracted E <$> ls).
Proof.
induction ls as [|l ls IH]; [done|].
simpl. by rewrite extracted_app, IH.
Qed.

Lemma extracted_perm (l1 l2 : list ident) :
l1 ≡ₚ l2 -> extracted E l1 ≡ₚ extracted E l2.
Proof.
intros H. unfold extracted. induction H as [|x l l' _ IH|x y l|l l' l'' _ IH1 _ IH2].
- done.
- simpl. destruct (extract E x); [|done]. simpl. by rewrite IH.
- simpl. destruct (extract E x), (extract E y); simpl; try done.
  rewrite !app_assoc. f_equiv. apply Permutation_app_comm.
- by etrans.
Qed.

Lemma extracted_split (W : Z) (S : list ident) :
1 < W ->
concat ((fun w => extracted E (partition_filter E w W S)) <$> seqZ 0 W)
≡ₚ extracted E S.
Proof.
intros HW. rewrite <- (extracted_perm _ _ (partition_filter_split W S HW)).
rewrite extracted_concat, <- list_fmap_compose. done.
Qed.

(** X5: the partitions of [W > 1] workers split the source as a list: put
    end to end they are a rearrangement of it, so an input that occurs
    several times is gone through that many times in all, and the records
    extracted by the workers together are a rearrangement of the records
    extracted from the whole source. *)
Theorem partitions_rearrange_source (W : Z) (S : list ident) :
1 < W ->
concat ((fun w => partition_filter E w W S) <$> seqZ 0 W) ≡ₚ S
/\ concat ((fun w => extracted E (partition_filter E w W S)) <$> seqZ 0 W)
   ≡ₚ extracted E S
/\ sum_list ((fun w => length (partition_filter E w W S)) <$> seqZ 0 W)
   = length S.
Proof.
intros HW. split; [by apply partition_filter_split|].
split; [by apply extracted_split|].
rewrite <- (Permutation_length (partition_filter_split W S HW)).
rewrite length_concat, <- list_fmap_compose. done.
Qed.

End Split.

(** ** build_table *)

Section Table.

Context {record : Type}.
Variable E : Env record.

Local Abbreviation state := (@state record).

(** The loop of [build_parquet] is the loop of [build_table] with the
    writer as sink. *)
Lemma Pipeline_loop_is_sink mf source :
forall counts w (s : state),
  Pipeline_loop E mf source counts w s
  = Pipeline_loop_sink E (writer_write E) mf source counts w s.
Proof.
induction source as [|p rest IH]; intros counts w s; [done|].
simpl. destruct (extract E p) as [records|].
- unfold bind. destruct (writer_write E w records s) as [[w'|e] s1]; [|done].
  apply IH.
- destruct (budget_exceeded mf (failed counts + 1)); [done|]. apply IH.
Qed.




End Table.

(** ** Whole builds *)

Section Runs.

Context {record : Type}.
Variable E : Env record.

Local Abbreviation state := (@state record).
Local Abbreviation node := (@node record).
Local Abbreviation file := (@file record).

(** A run of the worker touches its partition, its staging path and the
    directories on the way to the output, and nothing else. *)
Lemma worker_frame wid source output incremental W mf (s : state) o s'
  (q : path) :
_build_parquet_worker E wid source output incremental W mf s = (o, s') ->
q <> mktemp E (partition_path output (now E wid) wid W) ->
q <> partition_path output (now E wid) wid W ->
~ q `prefix_of` output ->
files s' !! q = files s !! q.
Proof.
intros Hrun Hq1 Hq2 Hq3.
pose proof (worker_unfold E wid source output incremental W mf s) as Hun.
simpl in Hun. rewrite Hrun in Hun.
set (final := partition_path output (now E wid) wid W) in *.
destruct (files s !! final) as [n|]; [by injection Hun as _ ->|].
set (s1 := State (files s) _) in Hun.
pose proof (mkdir_parents_spec output s1) as Hmk.
destruct (mkdir_parents output s1) as [[[]|e] s2].
- destruct Hmk as (_ & Hframe & _).
  destruct (write_partition_spec E final
              (owned_source E wid source output incremental W s) mf s2)
    as (o1 & s'' & Hw & Hfr & _).
  rewrite Hw in Hun. injection Hun as -> ->.
  rewrite Hfr by done. by rewrite Hframe.
- destruct Hmk as (-> & _). by injection Hun as _ ->.
Qed.

Lemma after_execution_frame source output incremental W mf (s : state) ii
  (q : path) :
let _worker := fun ii =>
  _build_parquet_worker E ii source output incremental W mf in
q <> mktemp E (partition_path output (now E ii) ii W) ->
q <> partition_path output (now E ii) ii W ->
~ q `prefix_of` output ->
files (after_execution _worker s ii) !! q = files s !! q.
Proof.
intros _worker Hq1 Hq2 Hq3. unfold after_execution.
destruct (_worker ii s) as [[c|exc] s1] eqn:Hrun;
  by apply (worker_frame _ _ _ _ _ _ _ _ _ _ Hrun).
Qed.

Lemma dispatch_frame source output incremental W worker_id mf (s : state) o s'
  (q : path) :
dispatch E source output incremental W worker_id mf s = (o, s') ->
(forall ii, q <> mktemp E (partition_path output (now E ii) ii W)
            /\ q <> partition_path output (now E ii) ii W) ->
~ q `prefix_of` output ->
files s' !! q = files s !! q.
Proof.
intros Hrun Hq Hpre. destruct worker_id as [wid|].
- rewrite dispatch_single in Hrun.
  destruct (_build_parquet_worker E wid source output incremental W mf s)
    as [o1 s1] eqn:Hw.
  simpl in Hrun. injection Hrun as _ <-.
  apply (worker_frame _ _ _ _ _ _ _ _ _ _ Hw); [apply Hq..|done].
- destruct (Z.ltb_spec 1 W) as [HW|HW].
  + rewrite dispatch_pool in Hrun by done. injection Hrun as _ <-.
    generalize (schedule E (seqZ 0 W)). intros ids. revert s.
    induction ids as [|ii rest IH]; intros s; [done|].
    simpl. rewrite IH. apply after_execution_frame; [apply Hq..|done].
  + rewrite dispatch_serial in Hrun by done.
    destruct (_build_parquet_worker E 0 source output incremental W mf s)
      as [o1 s1] eqn:Hw.
    simpl in Hrun. injection Hrun as _ <-.
    apply (worker_frame _ _ _ _ _ _ _ _ _ _ Hw); [apply Hq..|done].
Qed.

(** X7: a build that overwrites an existing output directory leaves
    nothing of its old content: whatever the outcome of the workers, every
    path below the output that is not a partition or a staging path of this
    build is empty at the end. *)
Theorem overwrite_leaves_no_stale_file source output workers W mf
  (s : state) o s' (q : path) :
resolve_workers E workers s = (Return W, s) ->
files s !! output = Some Dir ->
build_parquet E source output false true workers None mf s = (o, s') ->
output `prefix_of` q -> q <> output ->
(forall ii, q <> mktemp E (partition_path output (now E ii) ii W)
            /\ q <> partition_path output (now E ii) ii W) ->
files s' !! q = None.
Proof.
intros Hres Hdir Hrun Hunder Hne Hq.
rewrite build_parquet_run, Hres, check_worker_id_run, prepare_output_run in Hrun.
unfold exists_in in Hrun. rewrite Hdir in Hrun.
cbn [andb negb orb is_not_none] in Hrun.
destruct (rmtree_spec output s Hdir) as (s1 & Hrm & _ & Hgone & _).
rewrite Hrm in Hrun.
rewrite (dispatch_frame _ _ _ _ _ _ _ _ _ _ Hrun Hq).
- by apply Hgone.
- intros Hpre. apply Hne. by apply (anti_symm prefix).
Qed.


(** The partitions left by a sequence of runs, one for each id of a list
    without repetition, each of which does to the files what the worker
    does. *)
Lemma runs_partitions source output W mf (step : state -> Z -> state) :
let final := fun ii => partition_path output (now E ii) ii W in
let tmp := fun ii => mktemp E (final ii) in
let part := fun ii => partition_filter E ii W (resolve_source E source) in
forall ids : list Z,
(forall (s : state) ii, ii ∈ ids ->
   files (step s ii)
   = files (_build_parquet_worker E ii source output false W mf s).2) ->
NoDup ids ->
(forall ii jj, ii ∈ ids -> jj ∈ ids -> ii <> jj -> final ii <> final jj) ->
(forall ii jj, ii ∈ ids -> jj ∈ ids -> tmp ii <> final jj) ->
(forall ii, ii ∈ ids -> ~ tmp ii `prefix_of` output) ->
forall s : state,
(forall ii, ii ∈ ids -> files s !! final ii = None) ->
(forall q (f : file), q `prefix_of` output -> files s !! q <> Some (File f)) ->
(forall ii, ii ∈ ids ->
   files (fold_left step ids s) !! final ii =
   if over_budget E mf (part ii) then None
   else Some (File (File_ (extracted E (part ii)) true)))
/\ (forall q, (forall ii, ii ∈ ids -> q <> tmp ii /\ q <> final ii) ->
      ~ q `prefix_of` output -> files (fold_left step ids s) !! q = files s !! q)
/\ (forall q (f : file), q `prefix_of` output ->
      files (fold_left step ids s) !! q <> Some (File f)).
Proof.
intros final tmp part ids.
induction ids as [|ii rest IH];
  intros Hstep Hnd Hfin Htmp Hpre s Hfree Hclear.
- simpl. split; [|done]. intros ii Hin. by apply elem_of_nil in Hin.
- apply NoDup_cons in Hnd as [Hii Hnd]. simpl.
  assert (ii ∈ ii :: rest) as Hhead by left.
  destruct (worker_effect E ii source output false W mf s
              (Hfree ii Hhead) Hclear (Htmp ii ii Hhead Hhead) (Hpre ii Hhead))
    as (o & sw & Hrun & _ & Hframe & Hclear' & Hok & Hfail).
  change (owned_source E ii source output false W s) with (part ii) in Hok, Hfail.
  fold final in Hframe, Hok, Hfail. fold (tmp ii) in Hframe.
  pose proof (Hstep s ii Hhead) as Hfiles. rewrite Hrun in Hfiles.
  simpl in Hfiles.
  assert (forall jj, ~ final jj `prefix_of` output) as Hnp
    by (intros jj; apply joinpath_not_prefix).
  destruct (IH (fun s0 jj Hjj => Hstep s0 jj (list_elem_of_further _ _ _ Hjj))
              Hnd
              (fun a b Ha Hb => Hfin a b (list_elem_of_further _ _ _ Ha)
                                  (list_elem_of_further _ _ _ Hb))
              (fun a b Ha Hb => Htmp a b (list_elem_of_further _ _ _ Ha)
                                  (list_elem_of_further _ _ _ Hb))
              (fun a Ha => Hpre a (list_elem_of_further _ _ _ Ha))
              (step s ii))
    as (IH1 & IH2 & IH3).
  + intros jj Hjj. rewrite Hfiles, Hframe.
    * apply Hfree. by right.
    * intros Heq. apply (Htmp ii jj); [done|by right|done].
    * apply Hfin; [by right|done|]. intros ->. done.
    * apply Hnp.
  + intros q f Hq. rewrite Hfiles. by apply Hclear'.
  + split; [|split].
    * intros kk [->|Hkk]%elem_of_cons; [|by apply IH1].
      rewrite IH2, Hfiles.
      -- pose proof (failures_nonneg E (part ii)) as Hnn.
         unfold over_budget.
         destruct (Z.ltb_spec 0 (failures E (part ii))) as [Hpos|Hz]; simpl.
         ++ destruct (budget_exceeded mf (failures E (part ii))) eqn:Hb.
            ** by apply Hfail.
            ** apply Hok. by right.
         ++ apply Hok. left. lia.
      -- intros jj Hjj. split.
         ++ intros Heq. apply (Htmp jj ii); [by right|done|done].
         ++ apply Hfin; [done|by right|]. intros ->. done.
      -- apply Hnp.
    * intros q Hq Hqp. rewrite IH2.
      -- rewrite Hfiles. apply Hframe; [apply Hq, Hhead..|done].
      -- intros jj Hjj. apply Hq. by right.
      -- done.
    * exact IH3.
Qed.

Lemma final_inj output W ii jj :
datetime_valid (now E ii) -> datetime_valid (now E jj) ->
0 <= ii -> 0 <= jj -> 0 <= W ->
partition_path output (now E ii) ii W = partition_path output (now E jj) jj W ->
ii = jj.
Proof.
intros Hv Hv' Hi Hj HW. unfold partition_path, joinpath.
intros [_ Hname]%app_inj_tail.
by destruct (partition_name_inj _ _ _ _ _ _ Hv Hv' Hi Hj HW HW Hname) as (_ & ? & _).
Qed.

(** X9: a build with a pool of [W > 1] workers into a fresh output
    directory returns, whatever the order in which the pool runs the
    workers, and leaves for each worker: no partition, when the worker met
    more failures than it may; otherwise the records extracted from the
    inputs of its share, in the order of the source, as the rows stored at
    its partition path, in a partition file with its footer when there is
    at least one record. When no worker met more failures than it may, the
    rows of the partitions together are a rearrangement of the records
    extracted from the whole source. *)
Theorem parallel_build_partitions source output overwrite W mf (s : state) :
let final := fun ii => partition_path output (now E ii) ii W in
let part := fun ii => partition_filter E ii W (resolve_source E source) in
let stored := fun (s' : state) ii => rows (file_at (files s') (final ii)) in
1 < W ->
(forall n, mf = Some n -> 0 <= n) ->
schedule E (seqZ 0 W) ≡ₚ seqZ 0 W ->
(forall ii, 0 <= ii < W -> datetime_valid (now E ii)) ->
(forall ii jj, 0 <= ii < W -> 0 <= jj < W -> mktemp E (final ii) <> final jj) ->
(forall ii, 0 <= ii < W -> ~ mktemp E (final ii) `prefix_of` output) ->
(forall q (f : file), q `prefix_of` output -> files s !! q <> Some (File f)) ->
files s !! output = None ->
(forall ii, 0 <= ii < W -> files s !! final ii = None) ->
exists s',
  build_parquet E source output false overwrite (Some W) None mf s
    = (Return tt, s')
  /\ (forall ii, 0 <= ii < W ->
        if over_budget E mf (part ii)
        then files s' !! final ii = None
        else stored s' ii = extracted E (part ii)
             /\ (extracted E (part ii) <> [] ->
                   files s' !! final ii
                   = Some (File (File_ (extracted E (part ii)) true))))
  /\ ((forall ii, 0 <= ii < W -> over_budget E mf (part ii) = false) ->
        concat (stored s' <$> seqZ 0 W)
        ≡ₚ extracted E (resolve_source E source)).
Proof.
intros final part stored. subst final part stored. cbn beta.
intros HW _ Hsched Hvalid Htmp Hpre Hclear Hnone Hfree.
rewrite build_parquet_run, resolve_workers_run.
destruct (Z.eqb_spec W (-1)) as [?|_]; [lia|].
destruct (Z.leb_spec W 0) as [?|_]; [lia|].
rewrite check_worker_id_run, prepare_output_run.
unfold exists_in. rewrite Hnone. cbn [andb negb orb is_not_none].
rewrite dispatch_pool by done. eexists. split; [reflexivity|].
set (ids := schedule E (seqZ 0 W)) in *.
assert (forall ii, ii ∈ ids <-> 0 <= ii < W) as Hids.
{ intros ii. subst ids. rewrite Hsched, elem_of_seqZ. lia. }
destruct (runs_partitions source output W mf
            (after_execution
               (fun ii => _build_parquet_worker E ii source output false W mf))
            ids) with (s := s) as (H1 & _ & _).
- intros s0 ii _. unfold after_execution.
  by destruct (_build_parquet_worker E ii source output false W mf s0)
    as [[c|exc] s1].
- subst ids. rewrite Hsched. apply NoDup_seqZ.
- intros ii jj Hi%Hids Hj%Hids Hne Heq. apply Hne.
  apply (final_inj output W ii jj); [by apply Hvalid..|lia|lia|lia|done].
- intros ii jj Hi%Hids Hj%Hids. by apply Htmp.
- intros ii Hi%Hids. by apply Hpre.
- intros ii Hi%Hids. by apply Hfree.
- exact Hclear.
- cbn beta in H1. split.
  + intros ii Hi. specialize (H1 ii (proj2 (Hids ii) Hi)).
    destruct (over_budget E mf _); [exact H1|].
    unfold file_at. rewrite H1. done.
  + intros Hall.
    rewrite (list_fmap_ext _
               (fun ii => extracted E
                            (partition_filter E ii W (resolve_source E source)))
               (seqZ 0 W)).
    * by apply extracted_split.
    * intros i ii Hl. apply list_elem_of_lookup_2 in Hl.
      apply elem_of_seqZ in Hl. unfold file_at.
      rewrite H1 by (apply Hids; lia). rewrite Hall by lia. done.
Qed.


(** [atomicopen] leaves nothing at the temporary location, whether the
    body returns or raises. *)
Lemma write_partition_tmp_gone (final : path) (source : list ident)
  (mf : option Z) (s : state) :
mktemp E final <> final ->
files (write_partition E final source mf s).2 !! mktemp E final = None.
Proof.
intros Hne. unfold write_partition, atomicopen.
set (tmp := mktemp E final) in *.
destruct (BufferedParquetWriter _ _ _) as [[c|e] s2]; simpl.
- destruct (files s2 !! tmp) as [n|] eqn:Hn; simpl; [|done].
  by rewrite lookup_insert_ne, lookup_delete_eq.
- by rewrite lookup_delete_eq.
Qed.

Lemma worker_tmp_gone wid source output incremental W mf (s : state) :
let tmp := mktemp E (partition_path output (now E wid) wid W) in
tmp <> partition_path output (now E wid) wid W ->
files s !! tmp = None ->
files (_build_parquet_worker E wid source output incremental W mf s).2 !! tmp
= None.
Proof.
intros tmp Hne Hnone.
pose proof (worker_unfold E wid source output incremental W mf s) as Hun.
simpl in Hun. rewrite Hun. clear Hun.
set (final := partition_path output (now E wid) wid W) in *.
destruct (files s !! final) as [n|]; [done|].
set (s1 := State (files s) _).
pose proof (mkdir_parents_spec output s1) as Hmk.
destruct (mkdir_parents output s1) as [[[]|e] s2].
- by apply write_partition_tmp_gone.
- by destruct Hmk as (-> & _).
Qed.

(** X11: a build leaves no staging file behind: when the staging paths
    are free at the start and are neither partition paths nor on the way to
    the output directory, they are free at the end, whatever the workers
    return or raise. *)
Theorem build_leaves_no_staging_file source output incremental overwrite
  workers worker_id mf (s : state) o s' :
let final := fun ii =>
  partition_path output (now E ii) ii (effective_workers E workers) in
let tmp := fun ii => mktemp E (final ii) in
(forall ii jj, tmp ii <> final jj) ->
(forall ii, ~ tmp ii `prefix_of` output) ->
(forall ii, files s !! tmp ii = None) ->
build_parquet E source output incremental overwrite workers worker_id mf s
  = (o, s') ->
forall ii, files s' !! tmp ii = None.
Proof.
intros final tmp. subst tmp final. cbn beta.
intros Hfin Hpre Hnone Hrun. rewrite build_parquet_run in Hrun.
destruct (resolve_workers E workers s) as [[W|e] sr] eqn:Hres;
  [|by injection Hrun as _ <-].
apply resolve_workers_effective in Hres as ->.
set (W := effective_workers E workers) in *.
set (tmp := fun ii => mktemp E (partition_path output (now E ii) ii W)).
rewrite check_worker_id_run in Hrun.
destruct (match worker_id with None => _ | Some _ => _ end) as [[]|e];
  [|by injection Hrun as _ <-].
assert (forall (s0 : state) jj,
          (forall ii, files s0 !! tmp ii = None) ->
          forall ii,
            files (_build_parquet_worker E jj source output incremental W mf s0).2
              !! tmp ii = None) as Hworker.
{ intros s0 jj H0 ii. destruct (decide (tmp ii = tmp jj)) as [Heq|Hne].
  - rewrite Heq. apply worker_tmp_gone; [apply Hfin|apply (H0 jj)].
  - destruct (_build_parquet_worker E jj source output incremental W mf s0)
      as [o1 s1] eqn:Hw.
    simpl. rewrite (worker_frame _ _ _ _ _ _ _ _ _ _ Hw); [apply H0|done| |].
    + apply Hfin.
    + apply Hpre. }
assert (forall (s1 : state) o1 s2,
          (forall ii, files s1 !! tmp ii = None) ->
          dispatch E source output incremental W worker_id mf s1 = (o1, s2) ->
          forall ii, files s2 !! tmp ii = None) as Hd.
{ clear Hrun. intros s1 o1 s2 H1 Hdis. destruct worker_id as [wid|].
  - rewrite dispatch_single in Hdis. injection Hdis as _ <-. by apply Hworker.
  - destruct (Z.ltb_spec 1 W) as [HW|HW].
    + rewrite dispatch_pool in Hdis by done. injection Hdis as _ <-.
      generalize (schedule E (seqZ 0 W)). intros ids. revert s1 H1.
      induction ids as [|jj rest IH]; intros s1 H1; [done|].
      simpl. apply IH. intros ii. unfold after_execution.
      specialize (Hworker s1 jj H1 ii).
      by destruct (_build_parquet_worker E jj source output incremental W mf s1)
        as [[c|exc] s2].
    + rewrite dispatch_serial in Hdis by done. injection Hdis as _ <-.
      by apply Hworker. }
rewrite prepare_output_run in Hrun.
destruct (exists_in s output && negb (incremental || is_not_none worker_id));
  [|by apply (Hd s o s')].
destruct overwrite; [|by injection Hrun as _ <-].
unfold rmtree in Hrun.
destruct (files s !! output) as [[|f]|] eqn:Ho;
  [|by injection Hrun as _ <-..].
refine (Hd _ o s' _ Hrun). intros ii. simpl.
apply map_lookup_filter_None. left. apply Hnone.
Qed.

End Runs.

Section Scheduling.

Context {record : Type}.
Variable E : Env record.

Local Abbreviation state := (@state record).
Local Abbreviation file := (@file record).

(** X10: for a build that is not incremental, scheduling the workers from
    outside, one call for each worker id in any order, each reading its
    own clock, leaves at the partition paths of these calls what one call
    with a pool, reading the clock of its own workers, leaves at the
    partition paths of the pool. *)
Theorem external_scheduling_same_partitions source output W mf (ids : list Z)
  (clock : Z -> datetime) (s : state) :
let final := fun ii => partition_path output (now E ii) ii W in
let final' := fun ii => partition_path output (clock ii) ii W in
let call := fun (s0 : state) ii =>
  (build_parquet (with_clock E clock) source output false false (Some W)
     (Some ii) mf s0).2 in
1 < W ->
ids ≡ₚ seqZ 0 W ->
schedule E (seqZ 0 W) ≡ₚ seqZ 0 W ->
(forall ii, 0 <= ii < W ->
   datetime_valid (now E ii) /\ datetime_valid (clock ii)) ->
(forall ii jj, 0 <= ii < W -> 0 <= jj < W ->
   mktemp E (final ii) <> final jj /\ mktemp E (final' ii) <> final' jj) ->
(forall ii, 0 <= ii < W ->
   ~ mktemp E (final ii) `prefix_of` output
   /\ ~ mktemp E (final' ii) `prefix_of` output) ->
(forall q (f : file), q `prefix_of` output -> files s !! q <> Some (File f)) ->
files s !! output = None ->
(forall ii, 0 <= ii < W ->
   files s !! final ii = None /\ files s !! final' ii = None) ->
forall ii, 0 <= ii < W ->
  files (fold_left call ids s) !! final' ii
  = files (build_parquet E source output false false (Some W) None mf s).2
      !! final ii.
Proof.
intros final final' call. subst final final'. cbn beta.
intros HW Hids Hsched Hvalid Htmp Hpre Hclear Hnone Hfree ii Hii.
set (E' := with_clock E clock) in *.
assert (forall jj, jj ∈ ids <-> 0 <= jj < W) as Hin.
{ intros jj. rewrite Hids, elem_of_seqZ. lia. }
assert (forall jj, jj ∈ schedule E (seqZ 0 W) <-> 0 <= jj < W) as Hin'.
{ intros jj. rewrite Hsched, elem_of_seqZ. lia. }
destruct (runs_partitions E' source output W mf call ids) with (s := s)
  as (H1 & _ & _).
- intros s0 jj Hj%Hin. subst call. cbn beta.
  rewrite build_parquet_run, resolve_workers_run.
  destruct (Z.eqb_spec W (-1)) as [?|_]; [lia|].
  destruct (Z.leb_spec W 0) as [?|_]; [lia|].
  rewrite check_worker_id_run.
  destruct (negb ((0 <=? jj) && (jj <? W))) eqn:Hr.
  { apply negb_true_iff, andb_false_iff in Hr as [Hr|Hr]; lia. }
  rewrite prepare_output_run. cbn [andb negb orb is_not_none].
  rewrite andb_false_r. by rewrite dispatch_single.
- rewrite Hids. apply NoDup_seqZ.
- intros a b Ha%Hin Hb%Hin Hne Heq. apply Hne.
  apply (final_inj E' output W a b);
    [apply (Hvalid a Ha)|apply (Hvalid b Hb)|lia|lia|lia|exact Heq].
- intros a b Ha%Hin Hb%Hin. apply (Htmp a b Ha Hb).
- intros a Ha%Hin. apply (Hpre a Ha).
- intros a Ha%Hin. apply (Hfree a Ha).
- exact Hclear.
- etrans; [exact (H1 ii (proj2 (Hin ii) Hii))|]. symmetry.
  rewrite build_parquet_run, resolve_workers_run.
  destruct (Z.eqb_spec W (-1)) as [?|_]; [lia|].
  destruct (Z.leb_spec W 0) as [?|_]; [lia|].
  rewrite check_worker_id_run, prepare_output_run.
  unfold exists_in. rewrite Hnone. cbn [andb negb orb is_not_none].
  rewrite dispatch_pool by done. cbn [snd].
  destruct (runs_partitions E source output W mf
              (after_execution
                 (fun ii => _build_parquet_worker E ii source output false W mf))
              (schedule E (seqZ 0 W))) with (s := s) as (H2 & _ & _).
  + intros s0 jj _. unfold after_execution.
    by destruct (_build_parquet_worker E jj source output false W mf s0)
      as [[c|exc] s1].
  + rewrite Hsched. apply NoDup_seqZ.
  + intros a b Ha%Hin' Hb%Hin' Hne Heq. apply Hne.
    apply (final_inj E output W a b);
      [apply (Hvalid a Ha)|apply (Hvalid b Hb)|lia|lia|lia|exact Heq].
  + intros a b Ha%Hin' Hb%Hin'. apply (Htmp a b Ha Hb).
  + intros a Ha%Hin'. apply (Hpre a Ha).
  + intros a Ha%Hin'. apply (Hfree a Ha).
  + exact Hclear.
  + exact (H2 ii (proj2 (Hin' ii) Hii)).
Qed.

End Scheduling.

(** ** The further properties at work on the small build *)

(** The staging path of the small build is [.tmp] in the output
    directory. *)
Lemma demo_mktemp (output : path) (t : datetime) (ii W : Z) :
mktemp Demo.env (partition_path output t ii W) = joinpath output ".tmp".
Proof.
unfold partition_path.
change (mktemp Demo.env ?p) with (joinpath (parent p) ".tmp").
by rewrite parent_joinpath.
Qed.

Lemma partition_name_head (t : datetime) (ii W : Z) :
exists r, partition_name t ii W = String "p" r.
Proof. eexists. reflexivity. Qed.

Lemma demo_tmp_not_final (output : path) (t t' : datetime) (ii jj W W' : Z) :
mktemp Demo.env (partition_path output t ii W) <> partition_path output t' jj W'.
Proof.
rewrite demo_mktemp. unfold partition_path, joinpath.
intros [_ H]%app_inj_tail.
destruct (partition_name_head t' jj W') as [r Hr]. rewrite Hr in H. discriminate.
Qed.

Lemma demo_tmp_not_prefix (output : path) (t : datetime) (ii W : Z) :
~ mktemp Demo.env (partition_path output t ii W) `prefix_of` output.
Proof. rewrite demo_mktemp. apply joinpath_not_prefix. Qed.

Lemma demo_now_valid (ii : Z) : datetime_valid (now Demo.env ii).
Proof. unfold datetime_valid. simpl. lia. Qed.

Lemma demo_s0_empty (q : path) : files Demo.s0 !! q = None.
Proof. apply lookup_empty. Qed.

Lemma demo_s0_no_file (q : path) (f : @file string) :
files Demo.s0 !! q <> Some (File f).
Proof. by rewrite demo_s0_empty. Qed.

Lemma partition_paths_distinct_witness :
partition_path ["out"] (now Demo.env 0) 0 2
<> partition_path ["out"] (now Demo.env 1) 1 2
/\ partition_path ["out"] (now Demo.env 0) 0 2
   <> partition_path ["out"] (now Demo.env 0) 0 3.
Proof.
split.
- apply (partition_paths_distinct ["out"] ["out"] (now Demo.env 0)
           (now Demo.env 1) 0 1 2 2);
    [apply demo_now_valid|apply demo_now_valid|lia|lia|lia|lia|discriminate].
- apply (partition_paths_distinct ["out"] ["out"] (now Demo.env 0)
           (now Demo.env 0) 0 0 2 3);
    [apply demo_now_valid|apply demo_now_valid|lia|lia|lia|lia|discriminate].
Defined.

Lemma build_keeps_existing_witness :
let build := build_parquet Demo.env (Paths ["a"; "ccc"]) ["out"] true false
               None None (Some 0) Demo.s_out in
files Demo.s_out !! ["out"; "old.parquet"] = Some (File (File_ ["x"] true))
/\ files build.2 !! ["out"; "old.parquet"] = Some (File (File_ ["x"] true)).
Proof.
intros build.
assert (files Demo.s_out !! ["out"; "old.parquet"]
        = Some (File (File_ ["x"] true))) as Hold by (vm_compute; reflexivity).
split; [exact Hold|].
refine (build_keeps_existing Demo.env (Paths ["a"; "ccc"]) ["out"] true false
          None None (Some 0) Demo.s_out build.1 build.2 ["out"; "old.parquet"]
          _ (surjective_pairing build) Hold _ _).
- intros ii. rewrite demo_mktemp. discriminate.
- by left.
Defined.

Lemma aborted_run_blocks_rerun_witness :
let r := _build_parquet_worker Demo.env 0 (Paths ["a"; "bad1"; "ccc"]) ["out"]
           false 1 (Some 0) Demo.s0 in
r.1 = Raise (MaxFailuresExceeded 1)
/\ files r.2 !! ["out"] = Some Dir
/\ build_parquet Demo.env (Paths ["a"; "ccc"]) ["out"] false false None None
     (Some 0) r.2
   = (Raise (OutputExists ["out"]), r.2).
Proof.
intros r.
assert (r = (Raise (MaxFailuresExceeded 1), r.2)) as Hr
  by (vm_compute; reflexivity).
split; [vm_compute; reflexivity|].
destruct (aborted_run_blocks_rerun Demo.env 0 (Paths ["a"; "bad1"; "ccc"])
            ["out"] false 1 (Some 0) Demo.s0 1 r.2) as [Hdir Hnext].
- rewrite demo_mktemp. discriminate.
- exact Hr.
- split; [exact Hdir|].
  apply (Hnext (Paths ["a"; "ccc"]) None (Some 0) 1). reflexivity.
Defined.

Lemma partitions_rearrange_source_witness :
let S := ["a"; "bb"; "ccc"; "a"; "bad1"] in
let part := fun w => partition_filter Demo.env w 2 S in
1 < 2
/\ part 0 = ["bb"; "bad1"]
/\ part 1 = ["a"; "ccc"; "a"]
/\ concat (part <$> seqZ 0 2) ≡ₚ S
/\ sum_list ((fun w => length (part w)) <$> seqZ 0 2) = length S.
Proof.
intros S part. split; [lia|]. split; [vm_compute; reflexivity|].
split; [vm_compute; reflexivity|].
destruct (partitions_rearrange_source Demo.env 2 S ltac:(lia)) as (H1 & _ & H3).
split; [exact H1|exact H3].
Defined.

Lemma overwrite_leaves_no_stale_file_witness :
let build := build_parquet Demo.env (Paths ["a"]) ["out"] false true None None
               (Some 0) Demo.s_out in
files Demo.s_out !! ["out"; "old.parquet"] = Some (File (File_ ["x"] true))
/\ files build.2 !! ["out"; "old.parquet"] = None.
Proof.
intros build. split; [vm_compute; reflexivity|].
refine (overwrite_leaves_no_stale_file Demo.env (Paths ["a"]) ["out"] None 1
          (Some 0) Demo.s_out build.1 build.2 ["out"; "old.parquet"]
          _ _ (surjective_pairing build) _ _ _).
- reflexivity.
- vm_compute; reflexivity.
- by exists ["old.parquet"].
- discriminate.
- intros ii. split.
  + rewrite demo_mktemp. discriminate.
  + unfold partition_path, joinpath. intros [_ H]%(app_inj_tail ["out"]).
    destruct (partition_name_head (now Demo.env ii) ii 1) as [r Hr].
    rewrite Hr in H. discriminate.
Defined.

Lemma demo_schedule (W : Z) :
schedule Demo.env (seqZ 0 W) ≡ₚ seqZ 0 W.
Proof. symmetry. apply Permutation_rev. Qed.

Lemma parallel_build_partitions_witness :
let final := fun ii => partition_path ["out"] (now Demo.env ii) ii 2 in
exists s',
  build_parquet Demo.env (Paths ["a"; "bb"; "ccc"; "bad1"]) ["out"] false false
    (Some 2) None (Some 1) Demo.s0
  = (Return tt, s')
  /\ partition_filter Demo.env 0 2 ["a"; "bb"; "ccc"; "bad1"] = ["bb"; "bad1"]
  /\ partition_filter Demo.env 1 2 ["a"; "bb"; "ccc"; "bad1"] = ["a"; "ccc"]
  /\ files s' !! final 0 = Some (File (File_ ["bb"] true))
  /\ files s' !! final 1 = Some (File (File_ ["a"; "ccc"] true))
  /\ concat ((fun ii => rows (file_at (files s') (final ii))) <$> seqZ 0 2)
     ≡ₚ ["a"; "bb"; "ccc"].
Proof.
intros final.
destruct (parallel_build_partitions Demo.env (Paths ["a"; "bb"; "ccc"; "bad1"])
            ["out"] false 2 (Some 1) Demo.s0)
  as (s' & Hrun & Hparts & Hperm).
- lia.
- intros n [= <-]. lia.
- apply demo_schedule.
- intros ii _. apply demo_now_valid.
- intros ii jj _ _. apply demo_tmp_not_final.
- intros ii _. apply demo_tmp_not_prefix.
- intros q f _. apply demo_s0_no_file.
- apply demo_s0_empty.
- intros ii _. apply demo_s0_empty.
- exists s'. split; [exact Hrun|].
  split; [vm_compute; reflexivity|]. split; [vm_compute; reflexivity|].
  assert (forall ii, 0 <= ii < 2 ->
            over_budget Demo.env (Some 1)
              (partition_filter Demo.env ii 2
                 (resolve_source Demo.env (Paths ["a"; "bb"; "ccc"; "bad1"])))
            = false) as Hin.
  { intros ii Hii. assert (ii = 0 \/ ii = 1) as [-> | ->] by lia;
      vm_compute; reflexivity. }
  split; [|split].
  + pose proof (Hparts 0 ltac:(lia)) as H0. cbv beta in H0.
    rewrite (Hin 0 ltac:(lia)) in H0. apply H0. discriminate.
  + pose proof (Hparts 1 ltac:(lia)) as H1. cbv beta in H1.
    rewrite (Hin 1 ltac:(lia)) in H1. apply H1. discriminate.
  + apply Hperm. exact Hin.
Defined.

Lemma external_scheduling_same_partitions_witness :
let source := Paths ["a"; "bb"; "ccc"; "bad1"] in
let clock := fun ii : Z => Datetime 2026 11 5 (10 + ii) 30 0 in
let call := fun (s0 : @state string) ii =>
  (build_parquet (with_clock Demo.env clock) source ["out"] false false (Some 2)
     (Some ii) (Some 0) s0).2 in
let external := fold_left call [1; 0] Demo.s0 in
let pool :=
  build_parquet Demo.env source ["out"] false false (Some 2) None (Some 0)
    Demo.s0 in
files external !! ["out"; "part-20261105103000-0000-of-0002.parquet"]
= files pool.2 !! ["out"; "part-20261104090500-0000-of-0002.parquet"]
/\ files external !! ["out"; "part-20261105113000-0001-of-0002.parquet"]
   = files pool.2 !! ["out"; "part-20261104090500-0001-of-0002.parquet"]
/\ files pool.2 !! ["out"; "part-20261104090500-0000-of-0002.parquet"] = None
/\ files pool.2 !! ["out"; "part-20261104090500-0001-of-0002.parquet"]
   = Some (File (File_ ["a"; "ccc"] true)).
Proof.
intros source clock call external pool.
assert (forall ii, 0 <= ii < 2 -> datetime_valid (clock ii)) as Hclock.
{ intros ii Hii. unfold datetime_valid, clock. simpl. lia. }
pose proof (external_scheduling_same_partitions Demo.env source ["out"] 2
              (Some 0) [1; 0] clock Demo.s0 ltac:(lia) (perm_swap 0 1 [])
              (demo_schedule 2)
              (fun ii Hii => conj (demo_now_valid ii) (Hclock ii Hii))
              (fun ii jj _ _ =>
                 conj (demo_tmp_not_final ["out"] _ _ ii jj 2 2)
                      (demo_tmp_not_final ["out"] _ _ ii jj 2 2))
              (fun ii _ =>
                 conj (demo_tmp_not_prefix ["out"] _ ii 2)
                      (demo_tmp_not_prefix ["out"] _ ii 2))
              (fun q f _ => demo_s0_no_file q f)
              (demo_s0_empty _)
              (fun ii _ => conj (demo_s0_empty _) (demo_s0_empty _))) as Hsame.
split; [exact (Hsame 0 ltac:(lia))|]. split; [exact (Hsame 1 ltac:(lia))|].
split; vm_compute; reflexivity.
Defined.

Lemma build_leaves_no_staging_file_witness :
let build := build_parquet Demo.env (Paths ["a"; "bb"; "ccc"; "bad1"]) ["out"]
               false false (Some 2) None (Some 0) Demo.s0 in
mktemp Demo.env (partition_path ["out"] (now Demo.env 1) 1 2) = ["out"; ".tmp"]
/\ files build.2 !! ["out"; ".tmp"] = None.
Proof.
intros build. split; [reflexivity|].
refine (build_leaves_no_staging_file Demo.env (Paths ["a"; "bb"; "ccc"; "bad1"])
          ["out"] false false (Some 2) None (Some 0) Demo.s0 build.1 build.2
          _ _ _ (surjective_pairing build) 1).
- intros ii jj. apply demo_tmp_not_final.
- intros ii. apply demo_tmp_not_prefix.
- intros ii. apply demo_s0_empty.
Defined.
